(** * Heatwave: a shallow embedding of the generic in-memory cache

    The model follows the Go package [heatwave]: [lru.go] (the built-in
    recency strategy), [fifo.go] (the arrival strategy), [updater.go] (the
    strategy interface) and [heatwave.go] in its revision with a closed
    state (the one that declares [ErrBucketClosed]).

    Modelling choices:
    - Go pointers to [CacheItem] and to [lruNode] are addresses ([N]); the
      items live in an explicit heap owned by the bucket, so that the
      in-place update performed by [Nail] is seen through every alias
      (the key table and the strategy hold the same address).
    - [time.Time] and [time.Duration] are integers (nanoseconds); every
      operation that calls [time.Now()] receives the current instant as an
      argument.  [t.After(u)] is [u < t].
    - Go [int] counters ([maxSize], [size]) are [Z]; they never come close
      to the 64-bit bound.
    - A Go [map] is a [gmap]; its iteration order is unspecified in Go, the
      model iterates in the order of [map_to_list]. *)

From Stdlib Require Import ZArith List Lia Permutation.
From stdpp Require Import base gmap list strings.

Open Scope Z_scope.

(** Addresses of heap objects. *)
Abbreviation ptr := N.

(** ** Cache items *)

Record CacheItem (V : Type) := mkCacheItem {
  key : string;
  value : V;
  expiredAt : Z
}.
Arguments mkCacheItem {V} _ _ _.
Arguments key {V} _.
Arguments value {V} _.
Arguments expiredAt {V} _.

(** ** The strategy interface ([updater.go])

    [Updater[T]] is a Go interface over [*CacheItem[T]]; strategies only
    compare item pointers, so the methods take addresses.  Methods with a
    pointer receiver that mutate it return the new receiver. *)

Class Updater (U : Type) := {
  Add : ptr -> U -> U;
  Access : ptr -> U -> U;
  Remove : ptr -> U -> U;
  Evict : U -> option ptr * U;   (* [None] is the Go [nil] *)
  Size : U -> Z;
  Clear : U -> U
}.

(** ** The recency strategy ([lru.go])

    The doubly linked list between the two sentinels [head] and [tail] is
    the list [lru_nodes], read from [head.next] to [tail.prev]; the [prev]
    and [next] fields are implicit in the list order.  A node is identified
    by its address [nid]. *)

Module LRU.

Record lruNode := mkNode { nid : N; item : ptr }.

Record lru := mkLRU {
  nodes : list lruNode;
  size : Z;
  nodeMap : gmap ptr lruNode;
  next_node : N   (* next free node address *)
}.

Definition newLRUUpdater : lru := mkLRU [] 0 ∅ 0%N.

(** [removeNode] splices the node with this address out of the list. *)
Definition unlink (a : N) (l : list lruNode) : list lruNode :=
  filter (fun n => nid n <> a) l.

Definition addNodeToHead (node : lruNode) (l : lru) : lru :=
  mkLRU (node :: nodes l) (size l + 1) (nodeMap l) (next_node l).

Definition removeNode (node : lruNode) (l : lru) : lru :=
  mkLRU (unlink (nid node) (nodes l)) (size l - 1) (nodeMap l) (next_node l).

Definition moveNodeToHead (node : lruNode) (l : lru) : lru :=
  addNodeToHead node (removeNode node l).

Definition Add (it : ptr) (l : lru) : lru :=
  let node := mkNode (next_node l) it in
  addNodeToHead node
    (mkLRU (nodes l) (size l) (<[it := node]> (nodeMap l)) (N.succ (next_node l))).

Definition Access (it : ptr) (l : lru) : lru :=
  match nodeMap l !! it with
  | Some node => moveNodeToHead node l
  | None => l
  end.

Definition Remove (it : ptr) (l : lru) : lru :=
  match nodeMap l !! it with
  | Some node =>
      let l' := removeNode node l in
      mkLRU (nodes l') (size l') (delete it (nodeMap l')) (next_node l')
  | None => l
  end.

(** [removeTail]: [tail.prev] is the last node of the list.  When [size]
    is not 0 the list is not empty in every reachable state; the [None]
    branch of [last] (where Go would dereference the head sentinel's nil
    [prev]) is never taken there. *)
Definition removeTail (l : lru) : option ptr * lru :=
  if Z.eqb (size l) 0 then (None, l) else
  match last (nodes l) with
  | Some lastNode =>
      let it := item lastNode in
      let l' := removeNode lastNode l in
      (Some it, mkLRU (nodes l') (size l') (delete it (nodeMap l')) (next_node l'))
  | None => (None, l)
  end.

Definition Evict (l : lru) : option ptr * lru := removeTail l.

Definition Size (l : lru) : Z := size l.

(** [Clear] installs fresh sentinels and an empty [nodeMap]; node
    addresses already handed out are not reused. *)
Definition Clear (l : lru) : lru := mkLRU [] 0 ∅ (next_node l).

End LRU.

#[global] Instance lru_Updater : Updater LRU.lru := {
  Add := LRU.Add; Access := LRU.Access; Remove := LRU.Remove;
  Evict := LRU.Evict; Size := LRU.Size; Clear := LRU.Clear
}.

(** ** The arrival strategy ([fifo.go]) *)

Module FIFO.

Record fifo := mkFIFO { items : list ptr }.

Definition newFIFO : fifo := mkFIFO [].

Definition Add (it : ptr) (f : fifo) : fifo := mkFIFO (items f ++ [it]).

(** FIFO doesn't reorder on access. *)
Definition Access (it : ptr) (f : fifo) : fifo := f.

(** The loop splices out the first element equal to [it] and breaks. *)
Fixpoint remove_first (it : ptr) (l : list ptr) : list ptr :=
  match l with
  | [] => []
  | x :: r => if N.eqb x it then r else x :: remove_first it r
  end.

Definition Remove (it : ptr) (f : fifo) : fifo := mkFIFO (remove_first it (items f)).

Definition Evict (f : fifo) : option ptr * fifo :=
  match items f with
  | [] => (None, f)
  | x :: r => (Some x, mkFIFO r)
  end.

Definition Size (f : fifo) : Z := Z.of_nat (length (items f)).

Definition Clear (f : fifo) : fifo := mkFIFO [].

End FIFO.

#[global] Instance fifo_Updater : Updater FIFO.fifo := {
  Add := FIFO.Add; Access := FIFO.Access; Remove := FIFO.Remove;
  Evict := FIFO.Evict; Size := FIFO.Size; Clear := FIFO.Clear
}.

(** ** Values of the interface type [Updater[T]]

    The bucket's [updater] field has the interface type; its dynamic type
    is one of the two strategies of the package. *)

Inductive AnyUpdater :=
  | ULRU (l : LRU.lru)
  | UFIFO (f : FIFO.fifo).

Definition dispatch {A} (fl : LRU.lru -> A) (ff : FIFO.fifo -> A) (u : AnyUpdater) : A :=
  match u with ULRU l => fl l | UFIFO f => ff f end.

Definition evict_any (u : AnyUpdater) : option ptr * AnyUpdater :=
  match u with
  | ULRU l => let '(r, l') := LRU.Evict l in (r, ULRU l')
  | UFIFO f => let '(r, f') := FIFO.Evict f in (r, UFIFO f')
  end.

#[global] Instance any_Updater : Updater AnyUpdater := {
  Add it := dispatch (fun l => ULRU (LRU.Add it l)) (fun f => UFIFO (FIFO.Add it f));
  Access it := dispatch (fun l => ULRU (LRU.Access it l)) (fun f => UFIFO (FIFO.Access it f));
  Remove it := dispatch (fun l => ULRU (LRU.Remove it l)) (fun f => UFIFO (FIFO.Remove it f));
  Evict := evict_any;
  Size := dispatch LRU.Size FIFO.Size;
  Clear := dispatch (fun l => ULRU (LRU.Clear l)) (fun f => UFIFO (FIFO.Clear f))
}.

(** ** The bucket ([heatwave.go]) *)

Inductive error := ErrBucketClosed.

Module Bucket.

Definition defaultMaxSize : Z := 1000.
Definition defaultOutdated : Z := 5 * 60 * 1000000000.        (* time.Minute * 5 *)
Definition defaultCleanupInterval : Z := 60 * 1000000000.     (* time.Minute *)

Section Bucket.
Context {V : Type}.
(** The Go zero value of [T], returned by a missed [Bring]. *)
Variable zero : V.

(** [outdated] is a [*time.Duration] in Go; [NewBucket] and
    [WithBucketOutdated] always store a non-nil pointer, so the model keeps
    the pointed-to duration.  The background goroutine and its
    [stopCleanup] channel are the sweeper steps below. *)
Record Bucket := mkBucket {
  name : string;
  maxSize : Z;
  outdated : Z;
  cleanupInterval : Z;
  cache : gmap string ptr;
  heap : gmap ptr (CacheItem V);
  next_item : ptr;           (* next free item address *)
  updater : AnyUpdater;
  closed : bool
}.

Definition set_cache (c : gmap string ptr) (b : Bucket) : Bucket :=
  mkBucket (name b) (maxSize b) (outdated b) (cleanupInterval b) c (heap b)
    (next_item b) (updater b) (closed b).
Definition set_updater (u : AnyUpdater) (b : Bucket) : Bucket :=
  mkBucket (name b) (maxSize b) (outdated b) (cleanupInterval b) (cache b) (heap b)
    (next_item b) u (closed b).
Definition set_heap (h : gmap ptr (CacheItem V)) (n : ptr) (b : Bucket) : Bucket :=
  mkBucket (name b) (maxSize b) (outdated b) (cleanupInterval b) (cache b) h
    n (updater b) (closed b).

(** Dereference of an item pointer held by the bucket. *)
Definition deref (b : Bucket) (p : ptr) : CacheItem V :=
  default (mkCacheItem "" zero 0) (heap b !! p).

(** *** Construction options

    [NewBucketOption[T]] is a closure [func(b *Bucket[T])]; the options of
    the package are its constructors here and [apply_option] is the
    closures' bodies. *)
Inductive NewBucketOption :=
  | WithBucketName (n : string)
  | WithBucketOutdated (d : Z)
  | WithMaxSize (m : Z)
  | WithCleanupInterval (i : Z)
  | WithUpdater (u : AnyUpdater)
  | WithFIFOUpdater.

Definition apply_option (o : NewBucketOption) (b : Bucket) : Bucket :=
  match o with
  | WithBucketName n =>
      mkBucket n (maxSize b) (outdated b) (cleanupInterval b) (cache b) (heap b)
        (next_item b) (updater b) (closed b)
  | WithBucketOutdated d =>
      mkBucket (name b) (maxSize b) d (cleanupInterval b) (cache b) (heap b)
        (next_item b) (updater b) (closed b)
  | WithMaxSize m =>
      mkBucket (name b) m (outdated b) (cleanupInterval b) (cache b) (heap b)
        (next_item b) (updater b) (closed b)
  | WithCleanupInterval i =>
      mkBucket (name b) (maxSize b) (outdated b) i (cache b) (heap b)
        (next_item b) (updater b) (closed b)
  | WithUpdater u => set_updater u b
  | WithFIFOUpdater => set_updater (UFIFO FIFO.newFIFO) b
  end.

Definition NewBucket (opts : list NewBucketOption) : Bucket :=
  fold_left (fun b o => apply_option o b) opts
    (mkBucket "" defaultMaxSize defaultOutdated defaultCleanupInterval ∅ ∅ 0%N
       (ULRU LRU.newLRUUpdater) false).

(** *** Operations *)

Definition isClosed (b : Bucket) : bool := closed b.

Definition Nail (id : string) (data : V) (now : Z) (b : Bucket) : option error * Bucket :=
  if isClosed b then (Some ErrBucketClosed, b) else
  let expiredAt := now + outdated b in
  match cache b !! id with
  | Some existingItem =>
      (* existingItem.value = data; existingItem.expiredAt = expiredAt *)
      let it := deref b existingItem in
      let b1 := set_heap (<[existingItem := mkCacheItem (key it) data expiredAt]> (heap b))
                  (next_item b) b in
      (None, set_updater (Access existingItem (updater b1)) b1)
  | None =>
      let b1 :=
        if Z.geb (Size (updater b)) (maxSize b) then
          let '(evictedItem, u') := Evict (updater b) in
          let b' := set_updater u' b in
          match evictedItem with
          | Some e => set_cache (delete (key (deref b e)) (cache b')) b'
          | None => b'
          end
        else b in
      let newItem := next_item b1 in
      let b2 := set_heap (<[newItem := mkCacheItem id data expiredAt]> (heap b1))
                  (N.succ newItem) b1 in
      let b3 := set_cache (<[id := newItem]> (cache b2)) b2 in
      (None, set_updater (Add newItem (updater b3)) b3)
  end.

Definition Bring (id : string) (now : Z) (b : Bucket) : (V * bool) * Bucket :=
  if isClosed b then ((zero, false), b) else
  match cache b !! id with
  | None => ((zero, false), b)
  | Some it =>
      if Z.ltb (expiredAt (deref b it)) now then
        let b1 := set_updater (Remove it (updater b)) b in
        ((zero, false), set_cache (delete id (cache b1)) b1)
      else
        ((value (deref b it), true), set_updater (Access it (updater b)) b)
  end.

(** The body of the second loop of [cleanupExpired], for one key. *)
Definition remove_expired_key (b : Bucket) (k : string) : Bucket :=
  match cache b !! k with
  | Some it =>
      let b1 := set_updater (Remove it (updater b)) b in
      set_cache (delete k (cache b1)) b1
  | None => b
  end.

Definition cleanupExpired (now : Z) (b : Bucket) : Bucket :=
  if closed b then b else
  let expiredKeys :=
    map fst (filter (fun kv => Z.lt (expiredAt (deref b kv.2)) now) (map_to_list (cache b))) in
  fold_left remove_expired_key expiredKeys b.

(** One tick of the [startCleanup] goroutine; after [Close] the goroutine
    has returned, which the [isClosed] test reproduces. *)
Definition sweeper_tick (now : Z) (b : Bucket) : Bucket :=
  if isClosed b then b else cleanupExpired now b.

Definition Close (b : Bucket) : option error * Bucket :=
  if closed b then (None, b) else
  let b1 := mkBucket (name b) (maxSize b) (outdated b) (cleanupInterval b) (cache b)
              (heap b) (next_item b) (updater b) true in
  let b2 := set_cache ∅ b1 in
  (None, set_updater (Clear (updater b2)) b2).

Definition IsClosed (b : Bucket) : bool := isClosed b.

Definition Size (b : Bucket) : Z :=
  if isClosed b then 0 else Size (updater b).

Definition Clear (b : Bucket) : Bucket :=
  if isClosed b then b else
  let b1 := set_cache ∅ b in
  set_updater (Clear (updater b1)) b1.

(** *** Runs of operations *)

Inductive op :=
  | ONail (id : string) (data : V) (now : Z)
  | OBring (id : string) (now : Z)
  | OSize
  | OClear
  | OClose
  | OTick (now : Z)
  | OIsClosed.

Definition step (b : Bucket) (o : op) : Bucket :=
  match o with
  | ONail id data now => snd (Nail id data now b)
  | OBring id now => snd (Bring id now b)
  | OSize | OIsClosed => b
  | OClear => Clear b
  | OClose => snd (Close b)
  | OTick now => sweeper_tick now b
  end.

Definition run (ops : list op) (b : Bucket) : Bucket := fold_left step ops b.

End Bucket.
End Bucket.

(** ** Specification-side definitions *)

(** The ordering a strategy tracks, as the list of item addresses
    (most recent first for LRU, oldest first for FIFO). *)
Definition items_of (u : AnyUpdater) : list ptr :=
  match u with
  | ULRU l => map LRU.item (LRU.nodes l)
  | UFIFO f => FIFO.items f
  end.

(** Well-formedness of the linked structure of [lru.go]: [size] counts the
    nodes, node addresses are distinct and allocated, and [nodeMap] is
    exactly the index from an item to its node. *)
Definition lru_wf (l : LRU.lru) : Prop :=
  LRU.size l = Z.of_nat (length (LRU.nodes l)) /\
  NoDup (map LRU.nid (LRU.nodes l)) /\
  (forall n, n ∈ LRU.nodes l -> (LRU.nid n < LRU.next_node l)%N) /\
  (forall n, n ∈ LRU.nodes l -> LRU.nodeMap l !! LRU.item n = Some n) /\
  (forall p n, LRU.nodeMap l !! p = Some n -> n ∈ LRU.nodes l /\ LRU.item n = p).

Definition updater_wf (u : AnyUpdater) : Prop :=
  match u with
  | ULRU l => lru_wf l
  | UFIFO _ => True
  end.

Section Invariant.
Context {V : Type} (zero : V).

(** Lock-step of the key table and the strategy: the addresses held by
    the table are, up to order, the ordering of the strategy, without
    repetition; every address held is allocated and its item carries the
    key it is filed under. *)
Definition bucket_inv (b : Bucket.Bucket (V:=V)) : Prop :=
  updater_wf (Bucket.updater b) /\
  map snd (map_to_list (Bucket.cache b)) ≡ₚ items_of (Bucket.updater b) /\
  NoDup (items_of (Bucket.updater b)) /\
  (forall k p, Bucket.cache b !! k = Some p ->
     (p < Bucket.next_item b)%N /\ key (Bucket.deref zero b p) = k).

End Invariant.

(** [n] successive calls of [Close]. *)
Definition close_n {V} (n : nat) (b : Bucket.Bucket (V:=V)) : Bucket.Bucket (V:=V) :=
  Nat.iter n (fun b => snd (Bucket.Close b)) b.

(** ** The custom strategies of [example/custom_strategies.go]

    Both implement [Updater[T]] outside the package and reach a bucket
    through [WithUpdater]; they are modelled here as strategies on their
    own, with the same conventions as [lru] and [fifo]. *)

(** [randomStrategy]: an arrival list whose [Evict] takes the last
    element. *)
Module Random.

Record randomStrategy := mkRandom { items : list ptr }.

Definition newRandomStrategy : randomStrategy := mkRandom [].

Definition Add (it : ptr) (r : randomStrategy) : randomStrategy := mkRandom (items r ++ [it]).

(** Random strategy doesn't care about access patterns. *)
Definition Access (it : ptr) (r : randomStrategy) : randomStrategy := r.

(** The same splice loop as [fifo.Remove]. *)
Definition Remove (it : ptr) (r : randomStrategy) : randomStrategy :=
  mkRandom (FIFO.remove_first it (items r)).

(** [idx := len(r.items) - 1; item := r.items[idx]; r.items = r.items[:idx]]. *)
Definition Evict (r : randomStrategy) : option ptr * randomStrategy :=
  if Nat.eqb (length (items r)) 0 then (None, r) else
  let idx := (length (items r) - 1)%nat in
  (items r !! idx, mkRandom (take idx (items r))).

Definition Size (r : randomStrategy) : Z := Z.of_nat (length (items r)).

Definition Clear (r : randomStrategy) : randomStrategy := mkRandom [].

End Random.

#[global] Instance random_Updater : Updater Random.randomStrategy := {
  Add := Random.Add; Access := Random.Access; Remove := Random.Remove;
  Evict := Random.Evict; Size := Random.Size; Clear := Random.Clear
}.

(** [frequencyStrategy]: an arrival list and an access counter per
    item; [Evict] takes the first item of least count. *)
Module Frequency.

(** Go's [int] is 64 bits wide: [int(^uint(0) >> 1)] is [maxInt] and
    [f.frequency[item]++] wraps around. *)
Definition maxInt : Z := 2 ^ 63 - 1.
Definition minInt : Z := - 2 ^ 63.
Definition wrap64 (z : Z) : Z := (z + 2 ^ 63) mod 2 ^ 64 - 2 ^ 63.

Record frequencyStrategy := mkFreq {
  items : list ptr;
  frequency : gmap ptr Z
}.

Definition newFrequencyStrategy : frequencyStrategy := mkFreq [] ∅.

Definition Add (it : ptr) (f : frequencyStrategy) : frequencyStrategy :=
  mkFreq (items f ++ [it]) (<[it := 0]> (frequency f)).

Definition Access (it : ptr) (f : frequencyStrategy) : frequencyStrategy :=
  match frequency f !! it with
  | Some n => mkFreq (items f) (<[it := wrap64 (n + 1)]> (frequency f))
  | None => f
  end.

(** The splice loop of [fifo.Remove], then [delete(f.frequency, item)]. *)
Definition Remove (it : ptr) (f : frequencyStrategy) : frequencyStrategy :=
  mkFreq (FIFO.remove_first it (items f)) (delete it (frequency f)).

(** The search loop of [Evict] from index [i] on; the state is
    [(leastFreqItem, minFreq, leastFreqIndex)]. *)
Fixpoint scan (fr : gmap ptr Z) (i : Z) (l : list ptr) (st : option ptr * Z * Z)
    : option ptr * Z * Z :=
  match l with
  | [] => st
  | it :: r =>
      let st' :=
        match fr !! it with
        | Some freq =>
            let '(_, minFreq, _) := st in
            if Z.ltb freq minFreq then (Some it, freq, i) else st
        | None => st
        end in
      scan fr (i + 1) r st'
  end.

(** When [leastFreqIndex >= 0] the loop has also set [leastFreqItem]; the
    [None] case of the inner match is not reached. *)
Definition Evict (f : frequencyStrategy) : option ptr * frequencyStrategy :=
  if Nat.eqb (length (items f)) 0 then (None, f) else
  let '(leastFreqItem, _, leastFreqIndex) := scan (frequency f) 0 (items f) (None, maxInt, -1) in
  if Z.geb leastFreqIndex 0 then
    (leastFreqItem,
     mkFreq (delete (Z.to_nat leastFreqIndex) (items f))
       (match leastFreqItem with Some p => delete p (frequency f) | None => frequency f end))
  else (None, f).

Definition Size (f : frequencyStrategy) : Z := Z.of_nat (length (items f)).

Definition Clear (f : frequencyStrategy) : frequencyStrategy := mkFreq [] ∅.

End Frequency.

#[global] Instance frequency_Updater : Updater Frequency.frequencyStrategy := {
  Add := Frequency.Add; Access := Frequency.Access; Remove := Frequency.Remove;
  Evict := Frequency.Evict; Size := Frequency.Size; Clear := Frequency.Clear
}.

(** ** A strategy driven through its interface

    The calls a bucket makes on its strategy; the result of [Evict] is
    dropped here.  The bucket only ever [Add]s an item the strategy does
    not track (a freshly allocated one); [fresh_adds] checks that along a
    run, given what the strategy tracks. *)

Inductive uop :=
  | UAdd (p : ptr)
  | UAccess (p : ptr)
  | URemove (p : ptr)
  | UEvict
  | UClear.

Definition ustep {U} `{Updater U} (u : U) (o : uop) : U :=
  match o with
  | UAdd p => Add p u
  | UAccess p => Access p u
  | URemove p => Remove p u
  | UEvict => snd (Evict u)
  | UClear => Clear u
  end.

Definition urun {U} `{Updater U} (ops : list uop) (u : U) : U := fold_left ustep ops u.

Fixpoint fresh_adds {U} `{Updater U} (tracked : U -> list ptr) (ops : list uop) (u : U) : bool :=
  match ops with
  | [] => true
  | o :: os =>
      match o with UAdd p => negb (bool_decide (p ∈ tracked u)) | _ => true end &&
      fresh_adds tracked os (ustep u o)
  end.

(** The items a run hands to [Add], in order, and whether a run makes
    only [Add] and [Access] calls. *)
Fixpoint added (ops : list uop) : list ptr :=
  match ops with
  | [] => []
  | UAdd p :: os => p :: added os
  | _ :: os => added os
  end.

Fixpoint adds_and_accesses (ops : list uop) : bool :=
  match ops with
  | [] => true
  | (UAdd _ | UAccess _) :: os => adds_and_accesses os
  | _ :: _ => false
  end.

(** Well-formedness of a frequency strategy reached by the bucket's
    calls: distinct items, one counter per item, counters in [int]
    range. *)
Definition freq_wf (f : Frequency.frequencyStrategy) : Prop :=
  NoDup (Frequency.items f) /\
  (forall q, q ∈ Frequency.items f <-> is_Some (Frequency.frequency f !! q)) /\
  (forall q n, Frequency.frequency f !! q = Some n -> Frequency.minInt <= n <= Frequency.maxInt).

(** ** Configuration read off the option list *)

(** The value a field gets from [opts]: the last option that sets it,
    else the default [d]. *)
Definition last_set {A} (sel : Bucket.NewBucketOption -> option A) (d : A)
    (opts : list Bucket.NewBucketOption) : A :=
  fold_left (fun a o => default a (sel o)) opts d.

Definition sets_name (o : Bucket.NewBucketOption) : option string :=
  match o with Bucket.WithBucketName n => Some n | _ => None end.
Definition sets_outdated (o : Bucket.NewBucketOption) : option Z :=
  match o with Bucket.WithBucketOutdated d => Some d | _ => None end.
Definition sets_maxSize (o : Bucket.NewBucketOption) : option Z :=
  match o with Bucket.WithMaxSize m => Some m | _ => None end.
Definition sets_cleanupInterval (o : Bucket.NewBucketOption) : option Z :=
  match o with Bucket.WithCleanupInterval i => Some i | _ => None end.
Definition sets_updater (o : Bucket.NewBucketOption) : option AnyUpdater :=
  match o with
  | Bucket.WithUpdater u => Some u
  | Bucket.WithFIFOUpdater => Some (UFIFO FIFO.newFIFO)
  | _ => None
  end.

(** ** Properties of the two strategies *)

Lemma unlink_absent (a : N) (l : list LRU.lruNode) :
  a ∉ map LRU.nid l -> LRU.unlink a l = l.
Proof.
  unfold LRU.unlink. induction l as [|m l IH]; intros Ha; [done|].
  simpl in Ha. apply not_elem_of_cons in Ha as [Hm Ha].
  rewrite filter_cons_True by congruence. by rewrite IH.
Qed.

Lemma unlink_perm (a : N) (n : LRU.lruNode) (l : list LRU.lruNode) :
  NoDup (map LRU.nid l) -> n ∈ l -> LRU.nid n = a -> l ≡ₚ n :: LRU.unlink a l.
Proof.
  unfold LRU.unlink. induction l as [|m l IH]; intros Hnd Hin Ha.
  - inversion Hin.
  - simpl in Hnd. apply NoDup_cons in Hnd as [Hm Hnd].
    rewrite filter_cons. apply elem_of_cons in Hin as [->|Hin].
    + rewrite decide_False by congruence.
      fold (LRU.unlink a l). rewrite unlink_absent by (subst; done). done.
    + destruct (decide (LRU.nid m <> a)) as [Hne|Heq].
      * transitivity (m :: n :: filter (fun x => LRU.nid x <> a) l).
        { constructor. by apply IH. }
        apply Permutation_swap.
      * exfalso. apply Hm. apply dec_stable in Heq. rewrite Heq, <- Ha.
        apply list_elem_of_fmap. eauto.
Qed.

Lemma NoDup_map_inj_in {A B} (f : A -> B) (l : list A) (x y : A) :
  NoDup (map f l) -> x ∈ l -> y ∈ l -> f x = f y -> x = y.
Proof.
  induction l as [|a l IH]; intros Hnd Hx Hy Hf; [inversion Hx|].
  simpl in Hnd. apply NoDup_cons in Hnd as [Ha Hnd].
  apply elem_of_cons in Hx as [->|Hx]; apply elem_of_cons in Hy as [->|Hy]; try done.
  - exfalso. apply Ha. rewrite Hf. apply list_elem_of_fmap. eauto.
  - exfalso. apply Ha. rewrite <- Hf. apply list_elem_of_fmap. eauto.
  - by apply IH.
Qed.

Lemma lru_wf_perm ns ns' sz nm nx :
  lru_wf (LRU.mkLRU ns sz nm nx) -> ns' ≡ₚ ns -> lru_wf (LRU.mkLRU ns' sz nm nx).
Proof.
  intros (Hsz & Hnd & Hlt & Hmap & Hidx) Hp; unfold lru_wf; cbn in *.
  split; [rewrite Hsz; by rewrite (Permutation_length Hp)|].
  split; [by rewrite Hp|].
  split; [intros n Hn; apply Hlt; by rewrite <- Hp|].
  split; [intros n Hn; apply Hmap; by rewrite <- Hp|].
  intros p n Hpn. destruct (Hidx p n Hpn) as [Hn Hi]. split; [by rewrite Hp|done].
Qed.

(** [Size] counts the tracked ordering. *)
Lemma updater_size (u : AnyUpdater) :
  updater_wf u -> Size u = Z.of_nat (length (items_of u)).
Proof.
  destruct u as [l|f]; cbn; [|done].
  intros (Hsz & _). unfold LRU.Size. by rewrite length_map.
Qed.

Lemma updater_size_nonneg (u : AnyUpdater) : updater_wf u -> 0 <= Size u.
Proof. intros H. rewrite (updater_size u H). lia. Qed.

Lemma updater_add (u : AnyUpdater) (p : ptr) :
  updater_wf u -> p ∉ items_of u ->
  updater_wf (Add p u) /\ items_of (Add p u) ≡ₚ p :: items_of u.
Proof.
  destruct u as [l|f]; cbn.
  - intros (Hsz & Hnd & Hlt & Hmap & Hidx) Hp.
    destruct l as [ns sz nm nx]; cbn in *.
    split; [|done].
    split; [cbn; rewrite Hsz; lia|].
    split.
    { cbn. apply NoDup_cons. split; [|done].
      intros Hin. apply list_elem_of_fmap in Hin as (n & Heq & Hn).
      specialize (Hlt n Hn). lia. }
    split.
    { intros n Hn. apply elem_of_cons in Hn as [->|Hn]; cbn; [lia|].
      specialize (Hlt n Hn). lia. }
    split.
    { intros n Hn. apply elem_of_cons in Hn as [->|Hn]; cbn.
      - by rewrite lookup_insert_eq.
      - rewrite lookup_insert_ne; [by apply Hmap|].
        intros ->. apply Hp. apply list_elem_of_fmap. eauto. }
    intros q n Hq. cbn in Hq. destruct (decide (p = q)) as [<-|Hne].
    + rewrite lookup_insert_eq in Hq. injection Hq as <-. split; [left|done].
    + rewrite lookup_insert_ne in Hq by done. destruct (Hidx q n Hq).
      split; [by right|done].
  - intros _ _. split; [done|]. unfold FIFO.Add; cbn.
    rewrite Permutation_app_comm. done.
Qed.

Lemma updater_access_size (u : AnyUpdater) (p : ptr) : Size (Access p u) = Size u.
Proof.
  destruct u as [l|f]; cbn; [|done].
  unfold LRU.Access. destruct (LRU.nodeMap l !! p); [|done].
  unfold LRU.Size, LRU.moveNodeToHead, LRU.addNodeToHead, LRU.removeNode; cbn. lia.
Qed.

Lemma updater_access (u : AnyUpdater) (p : ptr) :
  updater_wf u ->
  updater_wf (Access p u) /\ items_of (Access p u) ≡ₚ items_of u.
Proof.
  destruct u as [l|f]; cbn; [|done].
  intros Hwf. unfold LRU.Access.
  destruct (LRU.nodeMap l !! p) as [node|] eqn:E; [|done].
  pose proof Hwf as (Hsz & Hnd & Hlt & Hmap & Hidx).
  destruct (Hidx p node E) as [Hn Hi].
  assert (Hperm : node :: LRU.unlink (LRU.nid node) (LRU.nodes l) ≡ₚ LRU.nodes l)
    by (symmetry; by apply unlink_perm).
  destruct l as [ns sz nm nx]; cbn in *.
  unfold LRU.moveNodeToHead, LRU.addNodeToHead, LRU.removeNode; cbn.
  split.
  - assert (Hsz' : sz - 1 + 1 = sz) by lia. rewrite Hsz'.
    by apply (lru_wf_perm ns).
  - by rewrite <- Hperm at 2.
Qed.

Lemma remove_first_perm (p : ptr) (l : list ptr) :
  p ∈ l -> l ≡ₚ p :: FIFO.remove_first p l.
Proof.
  induction l as [|x l IH]; intros Hin; [inversion Hin|]. cbn.
  destruct (N.eqb_spec x p) as [->|Hne]; [done|].
  apply elem_of_cons in Hin as [->|Hin]; [done|].
  rewrite (IH Hin) at 1. apply Permutation_swap.
Qed.

Lemma lru_remove_node (l : LRU.lru) (p : ptr) (node : LRU.lruNode) :
  lru_wf l -> LRU.nodeMap l !! p = Some node ->
  lru_wf (LRU.Remove p l) /\ map LRU.item (LRU.nodes l) ≡ₚ p :: map LRU.item (LRU.nodes (LRU.Remove p l)).
Proof.
  intros Hwf E. pose proof Hwf as (Hsz & Hnd & Hlt & Hmap & Hidx).
  destruct (Hidx p node E) as [Hn Hi].
  pose proof (unlink_perm (LRU.nid node) node (LRU.nodes l) Hnd Hn eq_refl) as Hperm.
  unfold LRU.Remove. rewrite E.
  destruct l as [ns sz nm nx]; unfold lru_wf, LRU.removeNode; cbn in *.
  split; [|rewrite Hperm at 1; cbn; by rewrite Hi].
  assert (Hnd' : NoDup (map LRU.nid (node :: LRU.unlink (LRU.nid node) ns)))
    by (by rewrite <- Hperm).
  cbn in Hnd'. apply NoDup_cons in Hnd' as [Hnotin Hnd'].
  assert (Hsub : forall m, m ∈ LRU.unlink (LRU.nid node) ns -> m ∈ ns)
    by (intros m Hm; rewrite Hperm; by right).
  split; [rewrite Hsz, (Permutation_length Hperm); cbn; lia|].
  split; [done|].
  split; [intros m Hm; by apply Hlt, Hsub|].
  split.
  - intros m Hm. rewrite lookup_delete_ne; [by apply Hmap, Hsub|].
    intros Heq. rewrite Heq, (Hmap m (Hsub m Hm)) in E. injection E as ->.
    apply Hnotin. apply list_elem_of_fmap. eauto.
  - intros q m Hq. destruct (decide (p = q)) as [<-|Hne].
    + by rewrite lookup_delete_eq in Hq.
    + rewrite lookup_delete_ne in Hq by done. destruct (Hidx q m Hq) as [Hm Hmi].
      split; [|done].
      unfold LRU.unlink. apply list_elem_of_filter. split; [|done].
      intros Hid. assert (m = node) as -> by (apply (NoDup_map_inj_in LRU.nid ns); done).
      congruence.
Qed.

Lemma updater_remove (u : AnyUpdater) (p : ptr) :
  updater_wf u -> p ∈ items_of u ->
  updater_wf (Remove p u) /\ items_of u ≡ₚ p :: items_of (Remove p u).
Proof.
  destruct u as [l|f]; cbn.
  - intros Hwf Hp. pose proof Hwf as (_ & _ & _ & Hmap & _).
    apply list_elem_of_fmap in Hp as (n & -> & Hn).
    by apply lru_remove_node with (node := n), Hmap.
  - intros _ Hp. split; [done|]. by apply remove_first_perm.
Qed.

(** [Evict] on a well-formed strategy either finds it empty and returns
    [nil], or returns a tracked item and behaves as [Remove] of it. *)
Lemma updater_evict (u u' : AnyUpdater) (r : option ptr) :
  updater_wf u -> Evict u = (r, u') ->
  (r = None /\ u' = u /\ items_of u = []) \/
  (exists e, r = Some e /\ e ∈ items_of u /\ u' = Remove e u).
Proof.
  destruct u as [l|f]; cbn.
  - intros Hwf. pose proof Hwf as (Hsz & _ & _ & Hmap & _).
    unfold LRU.Evict, LRU.removeTail.
    destruct (Z.eqb_spec (LRU.size l) 0) as [H0|H0].
    + intros [= <- <-]. left. split; [done|]. split; [done|].
      destruct (LRU.nodes l); cbn in *; [done|lia].
    + destruct (last (LRU.nodes l)) as [lastNode|] eqn:El.
      * intros [= <- <-]. right. exists (LRU.item lastNode).
        assert (Hin : lastNode ∈ LRU.nodes l)
          by (apply last_Some in El as (l0 & ->); set_solver).
        split; [done|]. split; [apply list_elem_of_fmap; eauto|].
        unfold LRU.Remove. by rewrite (Hmap lastNode Hin).
      * exfalso. apply last_None in El. rewrite El in Hsz. cbn in Hsz. lia.
  - intros _. unfold FIFO.Evict. destruct (FIFO.items f) as [|x r'] eqn:Ef.
    + intros [= <- <-]. by left.
    + intros [= <- <-]. right. exists x. split; [done|]. split; [left|].
      unfold FIFO.Remove. rewrite Ef. cbn. by rewrite N.eqb_refl.
Qed.

Lemma updater_clear (u : AnyUpdater) :
  updater_wf (Clear u) /\ items_of (Clear u) = [].
Proof.
  destruct u as [l|f]; cbn; [|done].
  split; [|done]. unfold lru_wf; cbn.
  split; [done|]. split; [constructor|].
  split; [intros n Hn; inversion Hn|]. split; [intros n Hn; inversion Hn|].
  intros q n Hq. by rewrite lookup_empty in Hq.
Qed.

(** ** The key table and the strategy move in lock-step *)

Section Lockstep.
Context {V : Type} (zero : V).
Local Abbreviation bucket := (Bucket.Bucket (V:=V)).
Local Abbreviation inv := (bucket_inv zero).

Lemma set_updater_id (b : bucket) : Bucket.set_updater (Bucket.updater b) b = b.
Proof. by destruct b. Qed.

Lemma in_cache_values (c : gmap string ptr) (p : ptr) :
  p ∈ map snd (map_to_list c) <-> exists k, c !! k = Some p.
Proof.
  rewrite list_elem_of_fmap. split.
  - intros ([k q] & -> & H). apply elem_of_map_to_list in H. eauto.
  - intros (k & H). exists (k, p). split; [done|]. by apply elem_of_map_to_list.
Qed.

Lemma inv_tracked (b : bucket) (p : ptr) :
  inv b -> p ∈ items_of (Bucket.updater b) <-> exists k, Bucket.cache b !! k = Some p.
Proof. intros (_ & Hp & _). rewrite <- in_cache_values. by rewrite Hp. Qed.

(** Go's [len(b.cache) == b.updater.Size()]. *)
Lemma inv_parity (b : bucket) :
  inv b -> Z.of_nat (size (Bucket.cache b)) = Size (Bucket.updater b).
Proof.
  intros (Hwf & Hp & _). rewrite updater_size by done.
  rewrite <- (Permutation_length Hp), length_map, length_map_to_list. done.
Qed.

Lemma inv_remove_key (b : bucket) (k : string) :
  inv b -> inv (Bucket.remove_expired_key b k).
Proof.
  intros Hinv. unfold Bucket.remove_expired_key.
  destruct (Bucket.cache b !! k) as [it|] eqn:Ek; [|done].
  pose proof Hinv as (Hwf & Hp & Hnd & Hkey).
  assert (Hit : it ∈ items_of (Bucket.updater b)) by (apply (inv_tracked b); eauto).
  destruct (updater_remove _ it Hwf Hit) as [Hwf' Hperm].
  pose proof (map_to_list_delete (Bucket.cache b) k it Ek) as Hdel.
  destruct b as [nm ms od ci c h ni u cl]; cbn in *.
  split; [done|]. split.
  - apply (Permutation_cons_inv (a := it)). rewrite <- Hperm, <- Hp, <- Hdel. done.
  - split; [rewrite Hperm in Hnd; by apply NoDup_cons in Hnd as [_ ?]|].
    intros k' p Hk'. cbn in Hk' |- *. destruct (decide (k = k')) as [<-|Hne].
    + by rewrite lookup_delete_eq in Hk'.
    + rewrite lookup_delete_ne in Hk' by done. by apply Hkey.
Qed.

Lemma inv_access (b : bucket) (p : ptr) :
  inv b -> inv (Bucket.set_updater (Access p (Bucket.updater b)) b).
Proof.
  intros (Hwf & Hp & Hnd & Hkey). destruct (updater_access _ p Hwf) as [Hwf' Hperm].
  destruct b; cbn in *. split; [done|]. rewrite Hperm. done.
Qed.

Lemma inv_cleared (b : bucket) (u : AnyUpdater) :
  inv (Bucket.set_updater (Clear u) (Bucket.set_cache ∅ b)).
Proof.
  destruct (updater_clear u) as [Hwf Hit]. destruct b; unfold bucket_inv; cbn -[Clear items_of updater_wf].
  rewrite Hit, map_to_list_empty. split; [done|]. split; [done|]. split; [constructor|].
  intros k p Hk. by rewrite lookup_empty in Hk.
Qed.

Lemma inv_cleanup_fold (keys : list string) (b : bucket) :
  inv b -> inv (fold_left Bucket.remove_expired_key keys b).
Proof.
  revert b. induction keys as [|k keys IH]; intros b Hb; [done|]. cbn.
  by apply IH, inv_remove_key.
Qed.

Lemma inv_deref_insert_other (b : bucket) (p q : ptr) (it : CacheItem V) (n : ptr) :
  q <> p -> Bucket.deref zero (Bucket.set_heap (<[p := it]> (Bucket.heap b)) n b) q =
            Bucket.deref zero b q.
Proof.
  intros Hne. destruct b. unfold Bucket.deref, Bucket.set_heap; cbn.
  by rewrite lookup_insert_ne by congruence.
Qed.

Lemma inv_nail_existing (b : bucket) (id : string) (p : ptr) (data : V) (now : Z) :
  inv b -> Bucket.closed b = false -> Bucket.cache b !! id = Some p ->
  inv (snd (Bucket.Nail zero id data now b)).
Proof.
  intros Hinv Hcl Hid. unfold Bucket.Nail, Bucket.isClosed. rewrite Hcl, Hid. cbn [snd].
  set (b1 := Bucket.set_heap _ _ b).
  assert (Hinv1 : inv b1).
  { destruct Hinv as (Hwf & Hp & Hnd & Hkey). unfold b1.
    split; [done|]. split; [done|]. split; [done|].
    intros k q Hk. cbn in Hk |- *. destruct (Hkey k q Hk) as [Hlt Hkq].
    split; [done|]. destruct (decide (q = p)) as [->|Hne].
    - unfold Bucket.deref at 1; cbn. rewrite lookup_insert_eq. exact Hkq.
    - by rewrite inv_deref_insert_other. }
  by apply inv_access.
Qed.

Lemma inv_insert_fresh (b : bucket) (id : string) (data : V) (e : Z) :
  inv b -> Bucket.cache b !! id = None ->
  let p := Bucket.next_item b in
  let b2 := Bucket.set_heap (<[p := mkCacheItem id data e]> (Bucket.heap b)) (N.succ p) b in
  let b3 := Bucket.set_cache (<[id := p]> (Bucket.cache b2)) b2 in
  let b4 := Bucket.set_updater (Add p (Bucket.updater b3)) b3 in
  inv b4 /\ Size (Bucket.updater b4) = Size (Bucket.updater b) + 1 /\
  Bucket.cache b4 = <[id := p]> (Bucket.cache b).
Proof.
  intros (Hwf & Hp & Hnd & Hkey) Hid p b2 b3 b4.
  assert (Hfresh : p ∉ items_of (Bucket.updater b)).
  { rewrite <- Hp, in_cache_values. intros (k & Hk). specialize (Hkey k p Hk). lia. }
  destruct (updater_add _ p Hwf Hfresh) as [Hwf' Hperm].
  assert (Hsz : Size (Bucket.updater b4) = Size (Bucket.updater b) + 1).
  { unfold b4, b3, b2; cbn -[Add Size].
    rewrite !updater_size by done. rewrite (Permutation_length Hperm). cbn. lia. }
  split; [|split; [done|by destruct b]].
  unfold b4, b3, b2; destruct b as [nm ms od ci c h ni u cl]; unfold bucket_inv;
    cbn -[Add items_of updater_wf] in *.
  split; [done|]. split.
  { rewrite map_to_list_insert by done. cbn. rewrite Hperm. by constructor. }
  split; [rewrite Hperm; by constructor|].
  intros k q Hk. destruct (decide (k = id)) as [->|Hne].
  - rewrite lookup_insert_eq in Hk. injection Hk as <-. split; [lia|].
    unfold Bucket.deref; cbn. by rewrite lookup_insert_eq.
  - rewrite lookup_insert_ne in Hk by congruence. destruct (Hkey k q Hk) as [Hlt Hkq].
    split; [lia|]. unfold Bucket.deref in *; cbn in *.
    rewrite lookup_insert_ne by (intros ->; lia). done.
Qed.

(** A [Nail] of a new key: the eviction (when the strategy is at
    [maxSize]) is the same table-and-strategy removal as the sweeper's, then
    the new item is filed in both structures. *)
Lemma inv_nail_new (b : bucket) (id : string) (data : V) (now : Z) :
  inv b -> Bucket.closed b = false -> Bucket.cache b !! id = None ->
  let r := Bucket.Nail zero id data now b in
  fst r = None /\ inv (snd r) /\
  Size (Bucket.updater (snd r)) =
    (if Z.geb (Size (Bucket.updater b)) (Bucket.maxSize b)
     then Z.max (Size (Bucket.updater b)) 1 else Size (Bucket.updater b) + 1).
Proof.
  intros Hinv Hcl Hid r. unfold r, Bucket.Nail, Bucket.isClosed. rewrite Hcl, Hid.
  cbn [fst snd]. split; [done|].
  pose proof Hinv as (Hwf & Hp & Hnd & Hkey).
  pose proof (updater_size_nonneg _ Hwf) as Hnn.
  destruct (Z.geb (Size (Bucket.updater b)) (Bucket.maxSize b)).
  - destruct (Evict (Bucket.updater b)) as [ev u'] eqn:Ev.
    destruct (updater_evict _ _ _ Hwf Ev) as [(-> & -> & Hnil) | (e & -> & He & ->)].
    + rewrite set_updater_id.
      destruct (inv_insert_fresh b id data (now + Bucket.outdated b) Hinv Hid)
        as (Hi & Hs & _).
      split; [done|]. rewrite Hs, updater_size, Hnil by done. cbn. lia.
    + destruct (proj1 (inv_tracked b e Hinv) He) as (k & Hk).
      destruct (Hkey k e Hk) as [_ Hke].
      set (b1 := Bucket.set_cache _ _).
      assert (Hb1 : b1 = Bucket.remove_expired_key b k).
      { unfold b1, Bucket.remove_expired_key. rewrite Hk.
        destruct b; unfold Bucket.deref in *; cbn in *. by rewrite Hke. }
      assert (Hinv1 : inv b1) by (rewrite Hb1; by apply inv_remove_key).
      assert (Hid1 : Bucket.cache b1 !! id = None).
      { unfold b1. destruct b; cbn in *. rewrite lookup_delete_ne; [done|].
        intros Heq. rewrite Heq in Hke. unfold Bucket.deref in Hke; cbn in Hke. congruence. }
      destruct (inv_insert_fresh b1 id data (now + Bucket.outdated b) Hinv1 Hid1)
        as (Hi & Hs & _).
      split; [exact Hi|]. rewrite Hs.
      destruct (updater_remove _ e Hwf He) as [Hwf' Hperm].
      assert (Hu1 : Bucket.updater b1 = Remove e (Bucket.updater b)) by (unfold b1; by destruct b).
      rewrite Hu1, !updater_size by done. rewrite (Permutation_length Hperm). cbn. lia.
  - destruct (inv_insert_fresh b id data (now + Bucket.outdated b) Hinv Hid) as (Hi & Hs & _).
    split; [done|]. rewrite Hs. lia.
Qed.

Lemma bring_expired_path (b : bucket) (id : string) (it : ptr) :
  Bucket.cache b !! id = Some it ->
  Bucket.set_cache (delete id (Bucket.cache (Bucket.set_updater (Remove it (Bucket.updater b)) b)))
    (Bucket.set_updater (Remove it (Bucket.updater b)) b) = Bucket.remove_expired_key b id.
Proof. intros H. unfold Bucket.remove_expired_key. by rewrite H. Qed.

Lemma step_inv (b : bucket) (o : Bucket.op) :
  inv b -> inv (Bucket.step zero b o).
Proof.
  intros Hinv. destruct o as [id data now|id now| | | |now|]; cbn [Bucket.step].
  - destruct (Bucket.closed b) eqn:Hcl.
    + unfold Bucket.Nail, Bucket.isClosed. by rewrite Hcl.
    + destruct (Bucket.cache b !! id) as [p|] eqn:Hid.
      * by apply (inv_nail_existing b id p).
      * by apply (inv_nail_new b id data now).
  - unfold Bucket.Bring, Bucket.isClosed. destruct (Bucket.closed b); [done|].
    destruct (Bucket.cache b !! id) as [it|] eqn:Hid; [|done].
    destruct (Z.ltb _ _); cbn [snd].
    + rewrite (bring_expired_path b id it Hid). by apply inv_remove_key.
    + by apply inv_access.
  - done.
  - unfold Bucket.Clear, Bucket.isClosed. destruct (Bucket.closed b); [done|].
    apply inv_cleared.
  - unfold Bucket.Close. destruct (Bucket.closed b); [done|]. apply inv_cleared.
  - unfold Bucket.sweeper_tick, Bucket.isClosed, Bucket.cleanupExpired.
    destruct (Bucket.closed b); [done|]. by apply inv_cleanup_fold.
  - done.
Qed.

Lemma run_inv (ops : list Bucket.op) (b : bucket) :
  inv b -> inv (Bucket.run zero ops b).
Proof.
  unfold Bucket.run. revert b. induction ops as [|o ops IH]; intros b Hb; [done|].
  cbn. by apply IH, step_inv.
Qed.

End Lockstep.

(** ** Construction and configuration *)

Section Config.
Context {V : Type} (zero : V).
Local Abbreviation bucket := (Bucket.Bucket (V:=V)).

Lemma options_keep_state (opts : list Bucket.NewBucketOption) (b : bucket) :
  let b' := fold_left (fun b o => Bucket.apply_option o b) opts b in
  Bucket.cache b' = Bucket.cache b /\ Bucket.closed b' = Bucket.closed b.
Proof.
  revert b. induction opts as [|o opts IH]; intros b; cbn; [done|].
  destruct (IH (Bucket.apply_option o b)) as [-> ->]. by destruct o, b.
Qed.

Lemma NewBucket_empty (opts : list Bucket.NewBucketOption) :
  Bucket.cache (Bucket.NewBucket (V:=V) opts) = ∅ /\
  Bucket.closed (Bucket.NewBucket (V:=V) opts) = false.
Proof. apply options_keep_state. Qed.

Lemma NewBucket_inv (opts : list Bucket.NewBucketOption) :
  updater_wf (Bucket.updater (Bucket.NewBucket (V:=V) opts)) ->
  items_of (Bucket.updater (Bucket.NewBucket (V:=V) opts)) = [] ->
  bucket_inv zero (Bucket.NewBucket opts).
Proof.
  intros Hwf Hnil. destruct (NewBucket_empty opts) as [Hc _].
  split; [done|]. rewrite Hc, Hnil, map_to_list_empty. split; [done|].
  split; [constructor|]. intros k p Hk. by rewrite lookup_empty in Hk.
Qed.

Lemma newLRUUpdater_fresh : updater_wf (ULRU LRU.newLRUUpdater) /\ items_of (ULRU LRU.newLRUUpdater) = [].
Proof.
  split; [|done]. cbn. unfold lru_wf; cbn. split; [done|]. split; [constructor|].
  split; [intros n Hn; inversion Hn|]. split; [intros n Hn; inversion Hn|].
  intros q n Hq. by rewrite lookup_empty in Hq.
Qed.

Lemma cleanup_fold_config (keys : list string) (b : bucket) :
  let b' := fold_left Bucket.remove_expired_key keys b in
  Bucket.maxSize b' = Bucket.maxSize b /\ Bucket.outdated b' = Bucket.outdated b /\
  Bucket.closed b' = Bucket.closed b /\ Bucket.cache b' ⊆ Bucket.cache b.
Proof.
  revert b. induction keys as [|k keys IH]; intros b; cbn; [done|].
  destruct (IH (Bucket.remove_expired_key b k)) as (-> & -> & -> & Hsub).
  unfold Bucket.remove_expired_key in *. destruct (Bucket.cache b !! k); [|done].
  destruct b; cbn in *. split; [done|]. split; [done|]. split; [done|].
  etrans; [exact Hsub|]. apply delete_subseteq.
Qed.

Lemma step_config (b : bucket) (o : Bucket.op) :
  Bucket.maxSize (Bucket.step zero b o) = Bucket.maxSize b /\
  Bucket.outdated (Bucket.step zero b o) = Bucket.outdated b.
Proof.
  destruct o as [id data now|id now| | | |now|]; cbn [Bucket.step].
  - unfold Bucket.Nail, Bucket.isClosed. destruct (Bucket.closed b); [done|].
    destruct (Bucket.cache b !! id); [by destruct b|].
    destruct (Z.geb _ _); [|by destruct b].
    destruct (Evict _) as [[e|] u']; by destruct b.
  - unfold Bucket.Bring, Bucket.isClosed. destruct (Bucket.closed b); [done|].
    destruct (Bucket.cache b !! id); [|done]. destruct (Z.ltb _ _); by destruct b.
  - done.
  - unfold Bucket.Clear, Bucket.isClosed. destruct (Bucket.closed b); [done|]. by destruct b.
  - unfold Bucket.Close. destruct (Bucket.closed b); [done|]. by destruct b.
  - unfold Bucket.sweeper_tick, Bucket.isClosed, Bucket.cleanupExpired.
    destruct (Bucket.closed b); [done|].
    by destruct (cleanup_fold_config
      (map fst (filter (fun kv => expiredAt (Bucket.deref zero b kv.2) < now)
        (map_to_list (Bucket.cache b)))) b) as (-> & -> & _).
  - done.
Qed.

End Config.

(** ** Capacity *)

Section Capacity.
Context {V : Type} (zero : V).
Local Abbreviation bucket := (Bucket.Bucket (V:=V)).
Local Abbreviation inv := (bucket_inv zero).

Lemma step_cache_sub (b : bucket) (o : Bucket.op) :
  (forall id data now, o <> Bucket.ONail id data now) ->
  Bucket.cache (Bucket.step zero b o) ⊆ Bucket.cache b.
Proof.
  intros Hno. destruct o as [id data now|id now| | | |now|]; cbn [Bucket.step].
  - exfalso. by apply (Hno id data now).
  - unfold Bucket.Bring, Bucket.isClosed. destruct (Bucket.closed b); [done|].
    destruct (Bucket.cache b !! id); [|done]. destruct (Z.ltb _ _); destruct b; cbn; [|done].
    apply delete_subseteq.
  - done.
  - unfold Bucket.Clear, Bucket.isClosed. destruct (Bucket.closed b); [done|].
    destruct b; apply map_empty_subseteq.
  - unfold Bucket.Close. destruct (Bucket.closed b); [done|]. destruct b; apply map_empty_subseteq.
  - unfold Bucket.sweeper_tick, Bucket.isClosed, Bucket.cleanupExpired.
    destruct (Bucket.closed b); [done|]. apply cleanup_fold_config.
  - done.
Qed.

(** Each step keeps the strategy's size within [max maxSize 1]. *)
Lemma step_bound (b : bucket) (o : Bucket.op) :
  inv b -> Size (Bucket.updater b) <= Z.max (Bucket.maxSize b) 1 ->
  Size (Bucket.updater (Bucket.step zero b o)) <= Z.max (Bucket.maxSize b) 1.
Proof.
  intros Hinv Hle.
  assert (Hother : (forall id data now, o <> Bucket.ONail id data now) ->
    Size (Bucket.updater (Bucket.step zero b o)) <= Z.max (Bucket.maxSize b) 1).
  { intros Hno. pose proof (map_subseteq_size _ _ (step_cache_sub b o Hno)) as Hsz.
    rewrite <- (inv_parity zero _ (step_inv zero b o Hinv)).
    rewrite <- (inv_parity zero _ Hinv) in Hle. lia. }
  destruct o as [id data now|id now| | | |now|]; try (apply Hother; discriminate).
  cbn [Bucket.step]. destruct (Bucket.closed b) eqn:Hcl.
  { unfold Bucket.Nail, Bucket.isClosed. by rewrite Hcl. }
  destruct (Bucket.cache b !! id) as [p|] eqn:Hid.
  - unfold Bucket.Nail, Bucket.isClosed. rewrite Hcl, Hid. cbn [snd].
    destruct b; cbn -[Size Access] in *. by rewrite updater_access_size.
  - destruct (inv_nail_new zero b id data now Hinv Hcl Hid) as (_ & _ & Hs).
    pose proof (updater_size_nonneg _ (proj1 Hinv)).
    rewrite Hs. destruct (Z.geb_spec (Size (Bucket.updater b)) (Bucket.maxSize b)); lia.
Qed.

Lemma run_bound (ops : list Bucket.op) (b : bucket) :
  inv b -> Size (Bucket.updater b) <= Z.max (Bucket.maxSize b) 1 ->
  Size (Bucket.updater (Bucket.run zero ops b)) <= Z.max (Bucket.maxSize b) 1 /\
  Bucket.maxSize (Bucket.run zero ops b) = Bucket.maxSize b.
Proof.
  unfold Bucket.run. revert b. induction ops as [|o ops IH]; intros b Hinv Hle; [done|].
  cbn. destruct (step_config zero b o) as [Hm _].
  destruct (IH (Bucket.step zero b o)) as [H1 H2].
  - by apply step_inv.
  - rewrite Hm. by apply step_bound.
  - rewrite <- Hm. split; [done|]. by rewrite H2.
Qed.

End Capacity.

(** ** What [Nail] files, and how an expired item leaves *)

Section Expiry.
Context {V : Type} (zero : V).
Local Abbreviation bucket := (Bucket.Bucket (V:=V)).

Lemma nail_stores (b : bucket) (id : string) (data : V) (now : Z) :
  Bucket.closed b = false ->
  let b' := snd (Bucket.Nail zero id data now b) in
  exists p, Bucket.cache b' !! id = Some p /\
    value (Bucket.deref zero b' p) = data /\
    expiredAt (Bucket.deref zero b' p) = now + Bucket.outdated b /\
    Bucket.closed b' = false /\ Bucket.outdated b' = Bucket.outdated b.
Proof.
  intros Hcl b'. unfold b', Bucket.Nail, Bucket.isClosed. rewrite Hcl.
  destruct (Bucket.cache b !! id) as [p|] eqn:Hid.
  - exists p. unfold Bucket.deref. destruct b; cbn in *. rewrite lookup_insert_eq. by cbn.
  - destruct (Z.geb _ _); [destruct (Evict _) as [[e|] u']|];
      exists (Bucket.next_item b); unfold Bucket.deref; destruct b; cbn;
      rewrite !lookup_insert_eq; cbn; done.
Qed.

Lemma cleanup_fold_removes (keys : list string) (b : bucket) (k : string) :
  (k ∈ keys \/ Bucket.cache b !! k = None) ->
  Bucket.cache (fold_left Bucket.remove_expired_key keys b) !! k = None.
Proof.
  revert b. induction keys as [|k' keys IH]; intros b Hk; cbn.
  - destruct Hk as [Hk|Hk]; [inversion Hk|done].
  - apply IH. destruct Hk as [Hk|Hk].
    + apply elem_of_cons in Hk as [Heq|Hk]; [|by left].
      subst k'. right. unfold Bucket.remove_expired_key.
      destruct (Bucket.cache b !! k) eqn:E; [|done]. destruct b; cbn in *.
      by rewrite lookup_delete_eq.
    + right. unfold Bucket.remove_expired_key.
      destruct (Bucket.cache b !! k') eqn:E; [|done]. destruct b; cbn in *.
      destruct (decide (k' = k)) as [->|Hne]; [by rewrite lookup_delete_eq|].
      by rewrite lookup_delete_ne.
Qed.

(** A sweeper tick after an item's deadline removes its key. *)
Lemma sweeper_removes_expired (b : bucket) (k : string) (p : ptr) (now : Z) :
  Bucket.closed b = false -> Bucket.cache b !! k = Some p ->
  expiredAt (Bucket.deref zero b p) < now ->
  Bucket.cache (Bucket.sweeper_tick zero now b) !! k = None.
Proof.
  intros Hcl Hk Hexp. unfold Bucket.sweeper_tick, Bucket.isClosed, Bucket.cleanupExpired.
  rewrite Hcl. apply cleanup_fold_removes. left.
  apply list_elem_of_fmap. exists (k, p). split; [done|].
  apply list_elem_of_filter. split; [done|]. by apply elem_of_map_to_list.
Qed.

End Expiry.

Lemma Close_closed {V} (b : Bucket.Bucket (V:=V)) :
  Bucket.closed b = true -> Bucket.Close b = (None, b).
Proof. intros H. unfold Bucket.Close. by rewrite H. Qed.

(** ** Claims *)

Lemma run_inv_fresh {V} (zero : V) (opts : list Bucket.NewBucketOption) (ops : list Bucket.op) :
  updater_wf (Bucket.updater (Bucket.NewBucket (V:=V) opts)) ->
  items_of (Bucket.updater (Bucket.NewBucket (V:=V) opts)) = [] ->
  bucket_inv zero (Bucket.run zero ops (Bucket.NewBucket opts)).
Proof. intros Hwf Hnil. by apply run_inv, NewBucket_inv. Qed.

(** C1 (table/strategy parity): for a bucket built with the built-in LRU
    strategy, every state reached by any sequence of [Nail], [Bring],
    [Size], [Clear], [Close], [IsClosed] and sweeper ticks has
    [len(cache) == updater.Size()], and the addresses filed in the key table
    are exactly the items of the strategy's ordering. *)
Theorem C1_table_strategy_parity {V} (zero : V) (opts : list Bucket.NewBucketOption)
    (ops : list Bucket.op) :
  Bucket.updater (Bucket.NewBucket (V:=V) opts) = ULRU LRU.newLRUUpdater ->
  let b := Bucket.run zero ops (Bucket.NewBucket opts) in
  Z.of_nat (size (Bucket.cache b)) = Size (Bucket.updater b) /\
  (forall p, (exists k, Bucket.cache b !! k = Some p) <-> p ∈ items_of (Bucket.updater b)).
Proof.
  intros Hu b. destruct newLRUUpdater_fresh as [Hwf Hnil]. rewrite <- Hu in Hwf, Hnil.
  pose proof (run_inv_fresh zero opts ops Hwf Hnil) as Hinv. fold b in Hinv.
  split; [by apply (inv_parity zero)|]. intros p. symmetry. by apply (inv_tracked zero).
Qed.

Lemma C1_table_strategy_parity_witness :
  Bucket.updater (Bucket.NewBucket (V:=nat) [Bucket.WithMaxSize 3]) = ULRU LRU.newLRUUpdater /\
  let b := Bucket.run 0%nat [Bucket.ONail "a" 1%nat 0; Bucket.OBring "a" 1; Bucket.OTick 2]
             (Bucket.NewBucket [Bucket.WithMaxSize 3]) in
  Z.of_nat (size (Bucket.cache b)) = Size (Bucket.updater b) /\
  (forall p, (exists k, Bucket.cache b !! k = Some p) <-> p ∈ items_of (Bucket.updater b)).
Proof.
  split; [reflexivity|].
  apply (C1_table_strategy_parity 0%nat [Bucket.WithMaxSize 3]). reflexivity.
Defined.

(** C2 (capacity): for a bucket built with the built-in LRU strategy and
    a positive [maxSize], the strategy's size never exceeds [maxSize] after
    any sequence of operations (in particular of [Nail] calls); and a
    [Nail] of a new key that finds the strategy at [maxSize] first takes
    the item returned by [Evict] out of the key table, then files the new
    item, so the size stays the same. *)
Theorem C2_capacity_invariant {V} (zero : V) (opts : list Bucket.NewBucketOption)
    (ops : list Bucket.op) (id : string) (data : V) (now : Z) :
  Bucket.updater (Bucket.NewBucket (V:=V) opts) = ULRU LRU.newLRUUpdater ->
  0 < Bucket.maxSize (Bucket.NewBucket (V:=V) opts) ->
  let b := Bucket.run zero ops (Bucket.NewBucket opts) in
  Size (Bucket.updater b) <= Bucket.maxSize (Bucket.NewBucket (V:=V) opts) /\
  (Bucket.closed b = false -> Bucket.cache b !! id = None ->
   Size (Bucket.updater b) >= Bucket.maxSize b ->
   exists e u', Evict (Bucket.updater b) = (Some e, u') /\
     Bucket.cache b !! key (Bucket.deref zero b e) = Some e /\
     let b' := snd (Bucket.Nail zero id data now b) in
     Bucket.cache b' = <[id := Bucket.next_item b]> (delete (key (Bucket.deref zero b e)) (Bucket.cache b)) /\
     Bucket.updater b' = Add (Bucket.next_item b) u' /\
     Size (Bucket.updater b') = Size (Bucket.updater b)).
Proof.
  intros Hu Hpos b. destruct newLRUUpdater_fresh as [Hwf0 Hnil0]. rewrite <- Hu in Hwf0, Hnil0.
  pose proof (run_inv_fresh zero opts ops Hwf0 Hnil0) as Hinv. fold b in Hinv.
  destruct (run_bound zero ops (Bucket.NewBucket opts)) as [Hbound Hmax].
  { by apply NewBucket_inv. }
  { rewrite Hu. cbn. unfold LRU.Size. cbn. lia. }
  fold b in Hbound, Hmax.
  split; [lia|]. intros Hcl Hid Hfull.
  pose proof Hinv as (Hwf & Hp & Hnd & Hkey).
  destruct (Evict (Bucket.updater b)) as [ev u'] eqn:Ev.
  destruct (updater_evict _ _ _ Hwf Ev) as [(-> & -> & Hnil) | (e & -> & He & ->)].
  { rewrite updater_size, Hnil in Hfull by done. cbn in Hfull. lia. }
  destruct (proj1 (inv_tracked zero b e Hinv) He) as (k & Hk).
  destruct (Hkey k e Hk) as [_ Hke].
  exists e, (Remove e (Bucket.updater b)). split; [done|]. rewrite Hke. split; [done|].
  destruct (inv_nail_new zero b id data now Hinv Hcl Hid) as (_ & _ & Hs).
  assert (Hge : (Size (Bucket.updater b) >=? Bucket.maxSize b) = true) by lia.
  rewrite Hge in Hs. pose proof (updater_size_nonneg _ Hwf).
  unfold Bucket.Nail, Bucket.isClosed in *. rewrite Hcl, Hid, Hge, Ev in *. cbn [snd] in *.
  rewrite Hs. split; [|split; [|lia]].
  - destruct b; cbn in *. unfold Bucket.deref in *; cbn in *. by rewrite Hke.
  - destruct b; cbn in *. done.
Qed.

(** C3 (recency eviction): with [maxSize = 3] and the default LRU
    strategy, [Nail A; Nail B; Nail C; Bring A; Nail D] (all within the
    five-minute TTL) evicts [B]: a following [Bring B] misses while
    [Bring A], [Bring C] and [Bring D] hit with the stored values. *)
Theorem C3_lru_recency_eviction {V} (zero vA vB vC vD : V) :
  let b := Bucket.run zero
             [Bucket.ONail "A" vA 0; Bucket.ONail "B" vB 1; Bucket.ONail "C" vC 2;
              Bucket.OBring "A" 3; Bucket.ONail "D" vD 4]
             (Bucket.NewBucket [Bucket.WithMaxSize 3]) in
  let r1 := Bucket.Bring zero "B" 5 b in
  let r2 := Bucket.Bring zero "A" 6 (snd r1) in
  let r3 := Bucket.Bring zero "C" 7 (snd r2) in
  let r4 := Bucket.Bring zero "D" 8 (snd r3) in
  fst r1 = (zero, false) /\ fst r2 = (vA, true) /\ fst r3 = (vC, true) /\ fst r4 = (vD, true).
Proof. vm_compute. repeat split. Qed.

(** C4 (arrival eviction): the same sequence on a bucket with the FIFO
    strategy evicts [A], the oldest insertion, despite the [Bring A]
    touch: a following [Bring A] misses. *)
Theorem C4_fifo_arrival_eviction {V} (zero vA vB vC vD : V) :
  let b := Bucket.run zero
             [Bucket.ONail "A" vA 0; Bucket.ONail "B" vB 1; Bucket.ONail "C" vC 2;
              Bucket.OBring "A" 3; Bucket.ONail "D" vD 4]
             (Bucket.NewBucket [Bucket.WithMaxSize 3; Bucket.WithFIFOUpdater]) in
  fst (Bucket.Bring zero "A" 5 b) = (zero, false).
Proof. vm_compute. reflexivity. Qed.

(** C5 (overwrite): on an open bucket, [Nail] of a key already in the
    table succeeds, rewrites that item in place (same address, new value,
    deadline [now + outdated]) and calls only the strategy's [Access] (no
    [Evict]); the table and [Size] are unchanged, and a [Bring] of the key
    no later than the new deadline returns the new value. *)
Theorem C5_overwrite_in_place {V} (zero : V) (b : Bucket.Bucket (V:=V)) (id : string) (p : ptr)
    (data : V) (now : Z) :
  Bucket.closed b = false -> Bucket.cache b !! id = Some p ->
  let r := Bucket.Nail zero id data now b in
  fst r = None /\
  snd r = Bucket.set_updater (Access p (Bucket.updater b))
            (Bucket.set_heap
               (<[p := mkCacheItem (key (Bucket.deref zero b p)) data (now + Bucket.outdated b)]>
                  (Bucket.heap b)) (Bucket.next_item b) b) /\
  Bucket.cache (snd r) = Bucket.cache b /\
  Bucket.Size (snd r) = Bucket.Size b /\
  (forall t, t <= now + Bucket.outdated b -> fst (Bucket.Bring zero id t (snd r)) = (data, true)).
Proof.
  intros Hcl Hid r. unfold r, Bucket.Nail, Bucket.isClosed. rewrite Hcl, Hid. cbn [fst snd].
  split; [done|]. split; [by destruct b|]. split; [by destruct b|].
  split.
  - unfold Bucket.Size, Bucket.isClosed. destruct b; cbn -[Size Access] in *. rewrite Hcl.
    apply updater_access_size.
  - intros t Ht. unfold Bucket.Bring, Bucket.isClosed, Bucket.deref.
    destruct b; cbn -[Access] in *. rewrite Hcl, Hid, lookup_insert_eq. cbn.
    destruct (Z.ltb_spec (now + outdated) t); [lia|done].
Qed.

Lemma C5_overwrite_in_place_witness :
  let b := snd (Bucket.Nail 0%nat "k" 1%nat 0 (Bucket.NewBucket [])) in
  Bucket.closed b = false /\ Bucket.cache b !! "k" = Some 0%N /\
  let r := Bucket.Nail 0%nat "k" 2%nat 10 b in
  fst r = None /\
  snd r = Bucket.set_updater (Access 0%N (Bucket.updater b))
            (Bucket.set_heap
               (<[0%N := mkCacheItem (key (Bucket.deref 0%nat b 0%N)) 2%nat (10 + Bucket.outdated b)]>
                  (Bucket.heap b)) (Bucket.next_item b) b) /\
  Bucket.cache (snd r) = Bucket.cache b /\
  Bucket.Size (snd r) = Bucket.Size b /\
  (forall t, t <= 10 + Bucket.outdated b -> fst (Bucket.Bring 0%nat "k" t (snd r)) = (2%nat, true)).
Proof.
  intros b. split; [reflexivity|]. split; [reflexivity|].
  apply (C5_overwrite_in_place 0%nat b "k" 0%N 2%nat 10); reflexivity.
Defined.

(** C7 (closed state): once [Close] has run, [Nail] fails with
    [ErrBucketClosed] and changes nothing, [Bring] misses and changes
    nothing, [Size] is 0, [Clear] and a further [Close] are no-ops (the
    latter returning success); on any bucket [Nail] fails exactly when the
    bucket is closed, [ErrBucketClosed] being the only error it returns,
    and [Close] never fails. *)
Theorem C7_closed_state {V} (zero : V) (b0 : Bucket.Bucket (V:=V)) (id : string) (data : V)
    (now : Z) :
  (let b := snd (Bucket.Close b0) in
   Bucket.Nail zero id data now b = (Some ErrBucketClosed, b) /\
   Bucket.Bring zero id now b = ((zero, false), b) /\
   Bucket.Size b = 0 /\ Bucket.Clear b = b /\ Bucket.Close b = (None, b)) /\
  (forall b : Bucket.Bucket (V:=V),
     (fst (Bucket.Nail zero id data now b) = Some ErrBucketClosed <-> Bucket.closed b = true) /\
     (fst (Bucket.Nail zero id data now b) = None <-> Bucket.closed b = false) /\
     fst (Bucket.Close b) = None).
Proof.
  split.
  - assert (Hcl : Bucket.closed (snd (Bucket.Close b0)) = true).
    { unfold Bucket.Close. destruct (Bucket.closed b0) eqn:E; [done|]. by destruct b0. }
    cbv zeta. unfold Bucket.Nail, Bucket.Bring, Bucket.Size, Bucket.Clear, Bucket.isClosed.
    rewrite Hcl. repeat split. by apply Close_closed.
  - intros b. unfold Bucket.Nail, Bucket.Close, Bucket.isClosed.
    destruct (Bucket.closed b); cbn [fst]; [done|].
    destruct (Bucket.cache b !! id); cbn [fst]; repeat split; intros; done.
Qed.

(** C8 (idempotent close): [Close] of an open bucket marks it closed,
    empties the key table and the strategy's ordering and returns success;
    every further [Close] returns success and changes nothing, and [Size]
    is 0 after any positive number of [Close] calls. *)
Theorem C8_idempotent_close {V} (b : Bucket.Bucket (V:=V)) :
  (Bucket.closed b = false ->
   let r := Bucket.Close b in
   fst r = None /\ Bucket.closed (snd r) = true /\ Bucket.cache (snd r) = ∅ /\
   items_of (Bucket.updater (snd r)) = [] /\ Size (Bucket.updater (snd r)) = 0) /\
  (forall n : nat,
   fst (Bucket.Close (close_n n b)) = None /\
   Bucket.Close (close_n (S n) b) = (None, close_n (S n) b) /\
   close_n (S n) b = close_n 1 b /\
   Bucket.Size (close_n (S n) b) = 0).
Proof.
  assert (Hcl1 : Bucket.closed (snd (Bucket.Close b)) = true).
  { unfold Bucket.Close. destruct (Bucket.closed b) eqn:E; [done|]. by destruct b. }
  assert (Hn : forall n, close_n (S n) b = close_n 1 b).
  { induction n as [|n IH]; [done|].
    change (close_n (S (S n)) b) with (snd (Bucket.Close (close_n (S n) b))).
    rewrite IH. cbn. unfold Bucket.Close at 1. by rewrite Hcl1. }
  split.
  - intros Hcl r. unfold r, Bucket.Close. rewrite Hcl.
    destruct (updater_clear (Bucket.updater b)) as [_ Hnil].
    destruct b; cbn -[Clear items_of Size] in *.
    split; [done|]. split; [done|]. split; [done|]. split; [done|].
    (* [Size] of a cleared strategy *)
    destruct updater; cbn; done.
  - intros n. split; [unfold Bucket.Close; by case_match|].
    rewrite (Hn n). cbn. split; [unfold Bucket.Close at 1; by rewrite Hcl1|].
    split; [done|]. unfold Bucket.Size, Bucket.isClosed. by rewrite Hcl1.
Qed.

Lemma C8_idempotent_close_witness :
  Bucket.closed (Bucket.NewBucket (V:=nat) []) = false /\
  (let r := Bucket.Close (Bucket.NewBucket (V:=nat) []) in
   fst r = None /\ Bucket.closed (snd r) = true /\ Bucket.cache (snd r) = ∅ /\
   items_of (Bucket.updater (snd r)) = [] /\ Size (Bucket.updater (snd r)) = 0).
Proof.
  split; [reflexivity|]. apply (C8_idempotent_close (Bucket.NewBucket (V:=nat) [])). reflexivity.
Defined.

(** C6 (expiry discovered on read), as the code has it: on an open bucket
    reached from a fresh built-in strategy, with TTL [t = outdated], after
    [Nail(key, v)] at [t0] a [Bring(key)] at [t1 <= t0 + t] returns
    [(v, found)]; at [t1 > t0 + t] it misses and removes the entry through
    the sweeper's removal step (strategy [Remove] plus table delete), so
    [Size] drops by one and the item is no longer in the strategy's
    ordering.  (The claim's "immediately" hit needs [t >= 0]; see the
    counterexample.) *)
Theorem C6_ttl_discovered_on_read {V} (zero : V) (opts : list Bucket.NewBucketOption)
    (ops : list Bucket.op) (id : string) (v : V) (t0 t1 : Z) :
  (Bucket.updater (Bucket.NewBucket (V:=V) opts) = ULRU LRU.newLRUUpdater \/
   Bucket.updater (Bucket.NewBucket (V:=V) opts) = UFIFO FIFO.newFIFO) ->
  let b := Bucket.run zero ops (Bucket.NewBucket opts) in
  Bucket.closed b = false ->
  let b' := snd (Bucket.Nail zero id v t0 b) in
  let r := Bucket.Bring zero id t1 b' in
  (t1 <= t0 + Bucket.outdated b -> fst r = (v, true)) /\
  (t0 + Bucket.outdated b < t1 ->
     fst r = (zero, false) /\ snd r = Bucket.remove_expired_key b' id /\
     Bucket.Size (snd r) = Bucket.Size b' - 1 /\
     exists p, Bucket.cache b' !! id = Some p /\ Bucket.cache (snd r) !! id = None /\
       p ∉ items_of (Bucket.updater (snd r))).
Proof.
  intros Hu b Hcl b' r.
  assert (Hinv : bucket_inv zero b).
  { destruct Hu as [Hu|Hu]; apply run_inv_fresh; rewrite Hu; try done.
    apply newLRUUpdater_fresh. }
  assert (Hinv' : bucket_inv zero b') by apply (step_inv zero b (Bucket.ONail id v t0) Hinv).
  destruct (nail_stores zero b id v t0 Hcl) as (p & Hp & Hval & Hexp & Hcl' & _).
  fold b' in Hp, Hval, Hexp, Hcl'.
  unfold r, Bucket.Bring, Bucket.isClosed. rewrite Hcl', Hp, Hexp.
  split.
  - intros Ht. destruct (Z.ltb_spec (t0 + Bucket.outdated b) t1); [lia|]. by rewrite Hval.
  - intros Ht. destruct (Z.ltb_spec (t0 + Bucket.outdated b) t1); [|lia]. cbn [fst snd].
    rewrite (bring_expired_path b' id p Hp).
    pose proof (inv_remove_key zero b' id Hinv') as Hinv2.
    split; [done|]. split; [done|].
    assert (Hc2 : Bucket.cache (Bucket.remove_expired_key b' id) = delete id (Bucket.cache b')).
    { unfold Bucket.remove_expired_key. rewrite Hp. by destruct b'. }
    assert (Hcl2 : Bucket.closed (Bucket.remove_expired_key b' id) = false).
    { unfold Bucket.remove_expired_key. rewrite Hp. by destruct b'. }
    split.
    { unfold Bucket.Size, Bucket.isClosed. rewrite Hcl', Hcl2.
      rewrite <- (inv_parity zero _ Hinv2), <- (inv_parity zero _ Hinv'), Hc2.
      rewrite map_size_delete_Some by eauto.
      assert (size (Bucket.cache b') <> 0%nat).
      { intros Hz. apply map_size_empty_inv in Hz. by rewrite Hz, lookup_empty in Hp. }
      lia. }
    exists p. split; [done|]. split; [rewrite Hc2; apply lookup_delete_eq|].
    intros Hin. apply (inv_tracked zero _ p Hinv2) in Hin as (k & Hk).
    rewrite Hc2 in Hk. destruct (decide (k = id)) as [->|Hne].
    + by rewrite lookup_delete_eq in Hk.
    + rewrite lookup_delete_ne in Hk by congruence.
      destruct Hinv' as (_ & _ & _ & Hkey).
      pose proof (proj2 (Hkey k p Hk)) as E1. pose proof (proj2 (Hkey id p Hp)) as E2.
      congruence.
Qed.

Lemma C6_ttl_discovered_on_read_witness :
  (Bucket.updater (Bucket.NewBucket (V:=nat) [Bucket.WithBucketOutdated 2]) = ULRU LRU.newLRUUpdater \/
   Bucket.updater (Bucket.NewBucket (V:=nat) [Bucket.WithBucketOutdated 2]) = UFIFO FIFO.newFIFO) /\
  Bucket.closed (Bucket.run 0%nat [Bucket.ONail "a" 5%nat 0] (Bucket.NewBucket [Bucket.WithBucketOutdated 2])) = false /\
  let b := Bucket.run 0%nat [Bucket.ONail "a" 5%nat 0] (Bucket.NewBucket [Bucket.WithBucketOutdated 2]) in
  let b' := snd (Bucket.Nail 0%nat "k" 7%nat 1 b) in
  let r := Bucket.Bring 0%nat "k" 4 b' in
  (4 <= 1 + Bucket.outdated b -> fst r = (7%nat, true)) /\
  (1 + Bucket.outdated b < 4 ->
     fst r = (0%nat, false) /\ snd r = Bucket.remove_expired_key b' "k" /\
     Bucket.Size (snd r) = Bucket.Size b' - 1 /\
     exists p, Bucket.cache b' !! "k" = Some p /\ Bucket.cache (snd r) !! "k" = None /\
       p ∉ items_of (Bucket.updater (snd r))).
Proof.
  split; [left; reflexivity|]. split; [reflexivity|].
  apply (C6_ttl_discovered_on_read 0%nat [Bucket.WithBucketOutdated 2] [Bucket.ONail "a" 5%nat 0]).
  - left; reflexivity.
  - reflexivity.
Defined.

(** C6 counterexample: with a negative TTL (accepted unchecked by
    [WithBucketOutdated]) a [Bring] at the very instant of the [Nail]
    already misses, so "immediately found" does not hold for every TTL. *)
Lemma C6_ttl_counterexample :
  let b := snd (Bucket.Nail 0%nat "k" 1%nat 0 (Bucket.NewBucket [Bucket.WithBucketOutdated (-1)])) in
  Bucket.closed b = false /\ fst (Bucket.Bring 0%nat "k" 0 b) = (0%nat, false).
Proof. split; reflexivity. Qed.

(** C9 counterexample: no option list yields a never-expire bucket: for
    every configuration, a [Nail] followed by a [Bring] far enough in the
    future misses. *)
Lemma C9_counterexample :
  ~ (exists opts : list Bucket.NewBucketOption,
       forall (id : string) (v : nat) (t0 t1 : Z), t0 <= t1 ->
         fst (Bucket.Bring 0%nat id t1 (snd (Bucket.Nail 0%nat id v t0 (Bucket.NewBucket opts)))) = (v, true)).
Proof.
  intros [opts H].
  set (t1 := Z.max 0 (Bucket.outdated (Bucket.NewBucket (V:=nat) opts) + 1)).
  specialize (H "k" 1%nat 0 t1 ltac:(lia)).
  destruct (NewBucket_empty (V:=nat) opts) as [_ Hcl].
  destruct (nail_stores 0%nat (Bucket.NewBucket opts) "k" 1%nat 0 Hcl)
    as (p & Hp & _ & Hexp & Hcl' & _).
  revert H. unfold Bucket.Bring, Bucket.isClosed. rewrite Hcl', Hp, Hexp.
  destruct (Z.ltb_spec (0 + Bucket.outdated (Bucket.NewBucket (V:=nat) opts)) t1); [|lia].
  discriminate.
Qed.

(** C9, as the code has it: there is no never-expire setting.  On any open
    bucket, [Nail] files the item with the finite deadline
    [now + outdated]; past it, [Bring] misses and drops the key, and a
    sweeper tick drops it as well. *)
Theorem C9_finite_deadline {V} (zero : V) (b : Bucket.Bucket (V:=V)) (id : string) (v : V) (t0 : Z) :
  Bucket.closed b = false ->
  let b' := snd (Bucket.Nail zero id v t0 b) in
  exists p, Bucket.cache b' !! id = Some p /\
    expiredAt (Bucket.deref zero b' p) = t0 + Bucket.outdated b /\
    forall t1, t0 + Bucket.outdated b < t1 ->
      fst (Bucket.Bring zero id t1 b') = (zero, false) /\
      Bucket.cache (snd (Bucket.Bring zero id t1 b')) !! id = None /\
      Bucket.cache (Bucket.sweeper_tick zero t1 b') !! id = None.
Proof.
  intros Hcl b'.
  destruct (nail_stores zero b id v t0 Hcl) as (p & Hp & _ & Hexp & Hcl' & _).
  fold b' in Hp, Hexp, Hcl'.
  exists p. split; [done|]. split; [done|]. intros t1 Ht.
  split; [|split].
  - unfold Bucket.Bring, Bucket.isClosed. rewrite Hcl', Hp, Hexp.
    destruct (Z.ltb_spec (t0 + Bucket.outdated b) t1); [done|lia].
  - unfold Bucket.Bring, Bucket.isClosed. rewrite Hcl', Hp, Hexp.
    destruct (Z.ltb_spec (t0 + Bucket.outdated b) t1); [|lia]. cbn [snd].
    rewrite (bring_expired_path b' id p Hp).
    unfold Bucket.remove_expired_key. rewrite Hp. destruct b'; cbn. apply lookup_delete_eq.
  - apply (sweeper_removes_expired zero b' id p t1 Hcl' Hp). lia.
Qed.

Lemma C9_finite_deadline_witness :
  Bucket.closed (Bucket.NewBucket (V:=nat) []) = false /\
  let b' := snd (Bucket.Nail 0%nat "k" 1%nat 0 (Bucket.NewBucket [])) in
  exists p, Bucket.cache b' !! "k" = Some p /\
    expiredAt (Bucket.deref 0%nat b' p) = 0 + Bucket.outdated (Bucket.NewBucket (V:=nat) []) /\
    forall t1, 0 + Bucket.outdated (Bucket.NewBucket (V:=nat) []) < t1 ->
      fst (Bucket.Bring 0%nat "k" t1 b') = (0%nat, false) /\
      Bucket.cache (snd (Bucket.Bring 0%nat "k" t1 b')) !! "k" = None /\
      Bucket.cache (Bucket.sweeper_tick 0%nat t1 b') !! "k" = None.
Proof.
  split; [reflexivity|].
  apply (C9_finite_deadline 0%nat (Bucket.NewBucket []) "k" 1%nat 0). reflexivity.
Defined.

Lemma C2_capacity_invariant_witness :
  Bucket.updater (Bucket.NewBucket (V:=nat) [Bucket.WithMaxSize 2]) = ULRU LRU.newLRUUpdater /\
  0 < Bucket.maxSize (Bucket.NewBucket (V:=nat) [Bucket.WithMaxSize 2]) /\
  let b := Bucket.run 0%nat [Bucket.ONail "a" 1%nat 0; Bucket.ONail "b" 2%nat 1]
             (Bucket.NewBucket [Bucket.WithMaxSize 2]) in
  Size (Bucket.updater b) <= Bucket.maxSize (Bucket.NewBucket (V:=nat) [Bucket.WithMaxSize 2]) /\
  (Bucket.closed b = false -> Bucket.cache b !! "c" = None ->
   Size (Bucket.updater b) >= Bucket.maxSize b ->
   exists e u', Evict (Bucket.updater b) = (Some e, u') /\
     Bucket.cache b !! key (Bucket.deref 0%nat b e) = Some e /\
     let b' := snd (Bucket.Nail 0%nat "c" 3%nat 2 b) in
     Bucket.cache b' = <[("c")%string := Bucket.next_item b]> (delete (key (Bucket.deref 0%nat b e)) (Bucket.cache b)) /\
     Bucket.updater b' = Add (Bucket.next_item b) u' /\
     Size (Bucket.updater b') = Size (Bucket.updater b)).
Proof.
  split; [reflexivity|]. split; [vm_compute; reflexivity|].
  apply (C2_capacity_invariant 0%nat [Bucket.WithMaxSize 2]); [reflexivity|vm_compute; reflexivity].
Defined.

(** C10 (non-positive capacity): [WithMaxSize] stores its argument
    unchecked; for a bucket built with the built-in LRU strategy and
    [maxSize <= 0], every reachable state holds at most one entry (in the
    strategy and in the key table), and on an open state a [Nail] of a new
    key succeeds, evicting the entry there is, so that afterwards the key
    table holds exactly the new key and the strategy's size is 1. *)
Theorem C10_nonpositive_capacity {V} (zero : V) (opts : list Bucket.NewBucketOption)
    (ops : list Bucket.op) (m : Z) (id : string) (data : V) (now : Z) :
  Bucket.updater (Bucket.NewBucket (V:=V) opts) = ULRU LRU.newLRUUpdater ->
  Bucket.maxSize (Bucket.NewBucket (V:=V) opts) <= 0 ->
  Bucket.maxSize (Bucket.NewBucket (V:=V) [Bucket.WithMaxSize m]) = m /\
  let b := Bucket.run zero ops (Bucket.NewBucket opts) in
  Size (Bucket.updater b) <= 1 /\ (size (Bucket.cache b) <= 1)%nat /\
  (Bucket.closed b = false -> Bucket.cache b !! id = None ->
   let r := Bucket.Nail zero id data now b in
   fst r = None /\ Bucket.cache (snd r) = {[id := Bucket.next_item b]} /\
   Size (Bucket.updater (snd r)) = 1).
Proof.
  intros Hu Hm. split; [reflexivity|]. intros b.
  destruct newLRUUpdater_fresh as [Hwf0 Hnil0]. rewrite <- Hu in Hwf0, Hnil0.
  pose proof (run_inv_fresh zero opts ops Hwf0 Hnil0) as Hinv. fold b in Hinv.
  destruct (run_bound zero ops (Bucket.NewBucket opts)) as [Hbound Hmax].
  { by apply NewBucket_inv. }
  { rewrite Hu. cbn. unfold LRU.Size. cbn. lia. }
  fold b in Hbound, Hmax.
  assert (Hone : Z.max (Bucket.maxSize (Bucket.NewBucket (V:=V) opts)) 1 = 1) by lia.
  rewrite Hone in Hbound.
  pose proof (inv_parity zero b Hinv) as Hpar.
  pose proof Hinv as (Hwf & Hp & Hnd & Hkey).
  pose proof (updater_size_nonneg _ Hwf) as Hnn.
  split; [done|]. split; [lia|]. intros Hcl Hid r.
  destruct (inv_nail_new zero b id data now Hinv Hcl Hid) as (Hr & _ & Hs). fold r in Hr, Hs.
  assert (Hge : (Size (Bucket.updater b) >=? Bucket.maxSize b) = true) by lia.
  rewrite Hge in Hs. split; [done|]. split; [|lia].
  unfold r, Bucket.Nail, Bucket.isClosed. rewrite Hcl, Hid, Hge.
  destruct (Evict (Bucket.updater b)) as [ev u'] eqn:Ev.
  destruct (updater_evict _ _ _ Hwf Ev) as [(-> & -> & Hnil) | (e & -> & He & ->)].
  - assert (Hemp : Bucket.cache b = ∅).
    { apply map_size_empty_inv. rewrite updater_size, Hnil in Hpar by done. cbn in Hpar. lia. }
    destruct b; cbn in *. by rewrite Hemp, insert_empty.
  - destruct (proj1 (inv_tracked zero b e Hinv) He) as (k & Hk).
    destruct (Hkey k e Hk) as [_ Hke].
    assert (Hdel : delete k (Bucket.cache b) = ∅).
    { apply map_size_empty_inv. rewrite map_size_delete_Some by eauto. lia. }
    destruct b; cbn in *. unfold Bucket.deref in *; cbn in *.
    by rewrite Hke, Hdel, insert_empty.
Qed.

Lemma C10_nonpositive_capacity_witness :
  Bucket.updater (Bucket.NewBucket (V:=nat) [Bucket.WithMaxSize 0]) = ULRU LRU.newLRUUpdater /\
  Bucket.maxSize (Bucket.NewBucket (V:=nat) [Bucket.WithMaxSize 0]) <= 0 /\
  Bucket.maxSize (Bucket.NewBucket (V:=nat) [Bucket.WithMaxSize (-5)]) = -5 /\
  let b := Bucket.run 0%nat [Bucket.ONail "a" 1%nat 0; Bucket.ONail "b" 2%nat 1]
             (Bucket.NewBucket [Bucket.WithMaxSize 0]) in
  Size (Bucket.updater b) <= 1 /\ (size (Bucket.cache b) <= 1)%nat /\
  (Bucket.closed b = false -> Bucket.cache b !! "c" = None ->
   let r := Bucket.Nail 0%nat "c" 3%nat 2 b in
   fst r = None /\ Bucket.cache (snd r) = {[("c")%string := Bucket.next_item b]} /\
   Size (Bucket.updater (snd r)) = 1).
Proof.
  split; [reflexivity|]. split; [vm_compute; discriminate|].
  apply (C10_nonpositive_capacity 0%nat [Bucket.WithMaxSize 0]); [reflexivity|vm_compute; discriminate].
Defined.

(** ** Further properties of the code *)

(** *** The strategies driven on their own *)

Lemma filter_ne_notin (p : ptr) (l : list ptr) :
  p ∉ l -> filter (fun q => q ≠ p) l = l.
Proof.
  induction l as [|x l IH]; intros Hp; [done|].
  apply not_elem_of_cons in Hp as [Hx Hp].
  rewrite filter_cons_True by congruence. by rewrite IH.
Qed.

Lemma NoDup_map_transfer {A B C} (f : A -> B) (g : A -> C) (l : list A) :
  NoDup (map f l) -> (forall x y, x ∈ l -> y ∈ l -> g x = g y -> f x = f y) ->
  NoDup (map g l).
Proof.
  induction l as [|a l IH]; intros Hnd Hfg; [constructor|].
  cbn in *. apply NoDup_cons in Hnd as [Ha Hnd]. apply NoDup_cons. split.
  - intros Hin. apply list_elem_of_fmap in Hin as (y & Hy & Hyl).
    apply Ha, list_elem_of_fmap. exists y. split; [|done].
    apply Hfg; [left|by right|done].
  - apply IH; [done|]. intros x y Hx Hy. apply Hfg; by right.
Qed.

Lemma lru_wf_item_nid (l : LRU.lru) (n m : LRU.lruNode) :
  lru_wf l -> n ∈ LRU.nodes l -> m ∈ LRU.nodes l ->
  (LRU.nid m = LRU.nid n <-> LRU.item m = LRU.item n).
Proof.
  intros (_ & Hnd & _ & Hmap & _) Hn Hm. split.
  - intros H. by rewrite (NoDup_map_inj_in LRU.nid (LRU.nodes l) m n Hnd Hm Hn H).
  - intros H. pose proof (Hmap m Hm) as E1. pose proof (Hmap n Hn) as E2.
    rewrite H, E2 in E1. by injection E1 as ->.
Qed.

Lemma lru_wf_NoDup_items (l : LRU.lru) : lru_wf l -> NoDup (items_of (ULRU l)).
Proof.
  intros Hwf. cbn. pose proof Hwf as (_ & Hnd & _).
  apply (NoDup_map_transfer LRU.nid); [done|].
  intros x y Hx Hy H. by apply (lru_wf_item_nid l y x Hwf Hy Hx).
Qed.

Lemma lru_items_unlink (ns : list LRU.lruNode) (a : N) (p : ptr) :
  (forall m, m ∈ ns -> LRU.nid m = a <-> LRU.item m = p) ->
  map LRU.item (LRU.unlink a ns) = filter (fun q => q ≠ p) (map LRU.item ns).
Proof.
  unfold LRU.unlink. induction ns as [|m ns IH]; intros H; [done|].
  assert (Hm : LRU.nid m = a <-> LRU.item m = p) by (apply H; left).
  assert (IH' : map LRU.item (filter (fun n => LRU.nid n <> a) ns)
                = filter (fun q => q ≠ p) (map LRU.item ns))
    by (apply IH; intros; apply H; by right).
  cbn [map]. rewrite !filter_cons.
  destruct (decide (LRU.nid m <> a)) as [H1|H1];
    destruct (decide (LRU.item m ≠ p)) as [H2|H2]; cbn [map].
  - by rewrite IH'.
  - exfalso. apply H1, Hm. by apply dec_stable in H2.
  - exfalso. apply H2, Hm. by apply dec_stable in H1.
  - done.
Qed.

Lemma lru_tracked_node (l : LRU.lru) (p : ptr) :
  lru_wf l -> p ∈ items_of (ULRU l) -> exists n, LRU.nodeMap l !! p = Some n /\ n ∈ LRU.nodes l /\ LRU.item n = p.
Proof.
  intros Hwf Hp. pose proof Hwf as (_ & _ & _ & Hmap & _).
  cbn in Hp. apply list_elem_of_fmap in Hp as (n & -> & Hn). exists n. auto.
Qed.

Lemma lru_untracked_lookup (l : LRU.lru) (p : ptr) :
  lru_wf l -> p ∉ items_of (ULRU l) -> LRU.nodeMap l !! p = None.
Proof.
  intros (_ & _ & _ & _ & Hidx) Hp. destruct (LRU.nodeMap l !! p) as [n|] eqn:E; [|done].
  exfalso. destruct (Hidx p n E) as [Hn Hi]. apply Hp. cbn. apply list_elem_of_fmap. eauto.
Qed.

Lemma lru_remove_items (l : LRU.lru) (p : ptr) :
  lru_wf l -> items_of (ULRU (LRU.Remove p l)) = filter (fun q => q ≠ p) (items_of (ULRU l)).
Proof.
  intros Hwf. destruct (decide (p ∈ items_of (ULRU l))) as [Hp|Hp].
  - destruct (lru_tracked_node l p Hwf Hp) as (n & E & Hn & Hi).
    unfold LRU.Remove. rewrite E. cbn.
    apply lru_items_unlink. intros m Hm. rewrite <- Hi. exact (lru_wf_item_nid l n m Hwf Hn Hm).
  - unfold LRU.Remove. rewrite (lru_untracked_lookup l p Hwf Hp). by rewrite filter_ne_notin.
Qed.

Lemma lru_evict_remove (l : LRU.lru) (n : LRU.lruNode) :
  lru_wf l -> LRU.size l <> 0 -> last (LRU.nodes l) = Some n ->
  LRU.Evict l = (Some (LRU.item n), LRU.Remove (LRU.item n) l).
Proof.
  intros Hwf H0 El. pose proof Hwf as (_ & _ & _ & Hmap & _).
  assert (Hn : n ∈ LRU.nodes l) by (apply last_Some in El as (l0 & ->); set_solver).
  unfold LRU.Evict, LRU.removeTail, LRU.Remove.
  rewrite (Hmap n Hn). apply Z.eqb_neq in H0. by rewrite H0, El.
Qed.

Lemma lru_step_wf (l : LRU.lru) (o : uop) :
  lru_wf l ->
  match o with UAdd p => p ∉ items_of (ULRU l) | _ => True end ->
  lru_wf (ustep l o).
Proof.
  intros Hwf Ho. destruct o as [p|p|p| |]; cbn.
  - exact (proj1 (updater_add (ULRU l) p Hwf Ho)).
  - exact (proj1 (updater_access (ULRU l) p Hwf)).
  - destruct (decide (p ∈ items_of (ULRU l))) as [Hp|Hp].
    + exact (proj1 (updater_remove (ULRU l) p Hwf Hp)).
    + unfold LRU.Remove. by rewrite (lru_untracked_lookup l p Hwf Hp).
  - destruct (LRU.Evict l) as [r l'] eqn:E. cbn.
    assert (Ev : Evict (ULRU l) = (r, ULRU l')) by (cbn; by rewrite E).
    destruct (updater_evict (ULRU l) _ _ Hwf Ev) as [(_ & Hu & _) | (e & _ & He & Hu)].
    + by injection Hu as ->.
    + cbn in Hu. injection Hu as ->. exact (proj1 (updater_remove (ULRU l) e Hwf He)).
  - exact (proj1 (updater_clear (ULRU l))).
Qed.

Lemma lru_run_wf (ops : list uop) (l : LRU.lru) :
  fresh_adds (fun l => items_of (ULRU l)) ops l = true -> lru_wf l -> lru_wf (urun ops l).
Proof.
  unfold urun. revert l. induction ops as [|o ops IH]; intros l Hf Hwf; [done|].
  cbn in Hf. apply andb_prop in Hf as [Ho Hf]. cbn. apply IH; [done|].
  apply lru_step_wf; [done|]. destruct o; try done.
  apply negb_true_iff, bool_decide_eq_false in Ho. done.
Qed.

Lemma lru_fresh_wf : lru_wf LRU.newLRUUpdater.
Proof. exact (proj1 newLRUUpdater_fresh). Qed.

Lemma lru_evict_last (l : LRU.lru) (xs : list ptr) (x : ptr) :
  lru_wf l -> items_of (ULRU l) = xs ++ [x] ->
  LRU.Evict l = (Some x, LRU.Remove x l) /\ items_of (ULRU (LRU.Remove x l)) = xs.
Proof.
  intros Hwf Hits. pose proof Hwf as (Hsz & _).
  pose proof (lru_wf_NoDup_items l Hwf) as Hnd.
  destruct (last (LRU.nodes l)) as [n|] eqn:El.
  - pose proof El as El'. apply last_Some in El' as (ns & Hns).
    pose proof Hits as Hits'. cbn in Hits'. rewrite Hns, map_app in Hits'. cbn in Hits'.
    apply app_inj_tail in Hits' as [Hxs Hx].
    assert (LRU.size l <> 0) by (rewrite Hsz, Hns, length_app; cbn; lia).
    rewrite (lru_evict_remove l n Hwf H El), Hx. split; [done|].
    rewrite lru_remove_items by done. rewrite Hits, filter_app.
    assert (Hx1 : filter (fun q => q ≠ x) [x] = []).
    { rewrite filter_cons_False; [done|]. intros Hne. by apply Hne. }
    rewrite Hx1, app_nil_r. apply filter_ne_notin.
    intros Hin. rewrite Hits in Hnd. apply NoDup_app in Hnd as (_ & Hdis & _).
    apply (Hdis x Hin). left.
  - apply last_None in El. cbn in Hits. rewrite El in Hits.
    cbn in Hits. by destruct xs.
Qed.

(** LRU structure: along any sequence of calls from [newLRUUpdater] in
    which [Add] receives untracked items, [size] counts the linked nodes,
    the tracked items are distinct, and [nodeMap] maps exactly each
    tracked item to its node. *)
Theorem lru_structure_invariant (ops : list uop) :
  fresh_adds (fun l => items_of (ULRU l)) ops LRU.newLRUUpdater = true ->
  let l := urun ops LRU.newLRUUpdater in
  LRU.Size l = Z.of_nat (length (LRU.nodes l)) /\
  NoDup (items_of (ULRU l)) /\
  (forall p n, LRU.nodeMap l !! p = Some n <-> n ∈ LRU.nodes l /\ LRU.item n = p).
Proof.
  intros Hf l. pose proof (lru_run_wf ops _ Hf lru_fresh_wf) as Hwf. fold l in Hwf.
  split; [exact (proj1 Hwf)|]. split; [by apply lru_wf_NoDup_items|].
  pose proof Hwf as (_ & _ & _ & Hmap & Hidx).
  intros p n. split; [apply Hidx|]. intros [Hn <-]. by apply Hmap.
Qed.

Lemma lru_structure_invariant_witness :
  fresh_adds (fun l => items_of (ULRU l)) [UAdd 1; UAdd 2; UAccess 1; UEvict; URemove 1] LRU.newLRUUpdater = true /\
  let l := urun [UAdd 1; UAdd 2; UAccess 1; UEvict; URemove 1] LRU.newLRUUpdater in
  LRU.Size l = Z.of_nat (length (LRU.nodes l)) /\
  NoDup (items_of (ULRU l)) /\
  (forall p n, LRU.nodeMap l !! p = Some n <-> n ∈ LRU.nodes l /\ LRU.item n = p).
Proof.
  split; [reflexivity|]. apply lru_structure_invariant. reflexivity.
Defined.

(** LRU ordering, most recent first: [Add] puts the item first, [Access]
    of a tracked item moves it to the front keeping the others' order
    (and is a no-op on an untracked one), [Remove] takes the item out,
    and [Evict] returns [nil] on an empty list and otherwise removes and
    returns the last (least recently used) item. *)
Theorem lru_recency_order (ops : list uop) (p : ptr) :
  fresh_adds (fun l => items_of (ULRU l)) ops LRU.newLRUUpdater = true ->
  let l := urun ops LRU.newLRUUpdater in
  let its := items_of (ULRU l) in
  items_of (ULRU (LRU.Add p l)) = p :: its /\
  (p ∈ its -> items_of (ULRU (LRU.Access p l)) = p :: filter (fun q => q ≠ p) its) /\
  (p ∉ its -> LRU.Access p l = l) /\
  items_of (ULRU (LRU.Remove p l)) = filter (fun q => q ≠ p) its /\
  (its = [] -> LRU.Evict l = (None, l)) /\
  (forall xs x, its = xs ++ [x] ->
     fst (LRU.Evict l) = Some x /\ items_of (ULRU (snd (LRU.Evict l))) = xs).
Proof.
  intros Hf l its. pose proof (lru_run_wf ops _ Hf lru_fresh_wf) as Hwf. fold l in Hwf.
  pose proof (lru_wf_NoDup_items l Hwf) as Hnd. fold its in Hnd.
  split; [done|]. split; [|split; [|split; [|split]]].
  - intros Hp. destruct (lru_tracked_node l p Hwf Hp) as (n & E & Hn & Hi).
    unfold LRU.Access. rewrite E. cbn. rewrite Hi. f_equal.
    apply lru_items_unlink. intros m Hm. rewrite <- Hi. exact (lru_wf_item_nid l n m Hwf Hn Hm).
  - intros Hp. unfold LRU.Access. by rewrite (lru_untracked_lookup l p Hwf Hp).
  - by apply lru_remove_items.
  - intros Hnil. pose proof Hwf as (Hsz & _).
    assert (LRU.nodes l = []) as Hns by (by apply map_eq_nil in Hnil).
    unfold LRU.Evict, LRU.removeTail. rewrite Hsz, Hns. done.
  - intros xs x Hits. destruct (lru_evict_last l xs x Hwf Hits) as [-> Hxs]. done.
Qed.

Lemma lru_recency_order_witness :
  fresh_adds (fun l => items_of (ULRU l)) [UAdd 1; UAdd 2; UAdd 3] LRU.newLRUUpdater = true /\
  let l := urun [UAdd 1; UAdd 2; UAdd 3] LRU.newLRUUpdater in
  let its := items_of (ULRU l) in
  items_of (ULRU (LRU.Add 1 l)) = 1%N :: its /\
  (1%N ∈ its -> items_of (ULRU (LRU.Access 1 l)) = 1%N :: filter (fun q => q ≠ 1%N) its) /\
  (1%N ∉ its -> LRU.Access 1 l = l) /\
  items_of (ULRU (LRU.Remove 1 l)) = filter (fun q => q ≠ 1%N) its /\
  (its = [] -> LRU.Evict l = (None, l)) /\
  (forall xs x, its = xs ++ [x] ->
     fst (LRU.Evict l) = Some x /\ items_of (ULRU (snd (LRU.Evict l))) = xs).
Proof.
  split; [reflexivity|]. apply (lru_recency_order [UAdd 1; UAdd 2; UAdd 3] 1). reflexivity.
Defined.

(** LRU given the same item twice: [Add] does not check [nodeMap], so a
    second [Add] of an item links a second node and re-points [nodeMap]
    to it; a [Remove] then unlinks only that node, and the first one stays
    in the list, counted by [Size], while [Remove] and [Access] of the
    item no longer find it. *)
Theorem lru_double_add_stale_node (ops : list uop) (p : ptr) :
  fresh_adds (fun l => items_of (ULRU l)) ops LRU.newLRUUpdater = true ->
  let l := urun ops LRU.newLRUUpdater in
  p ∉ items_of (ULRU l) ->
  let l3 := LRU.Remove p (LRU.Add p (LRU.Add p l)) in
  LRU.Size l3 = LRU.Size l + 1 /\
  items_of (ULRU l3) = p :: items_of (ULRU l) /\
  LRU.nodeMap l3 !! p = None /\
  LRU.Remove p l3 = l3 /\ LRU.Access p l3 = l3.
Proof.
  intros Hf l Hp l3. pose proof (lru_run_wf ops _ Hf lru_fresh_wf) as Hwf. fold l in Hwf.
  pose proof Hwf as (_ & _ & Hlt & _).
  assert (Hns : LRU.unlink (N.succ (LRU.next_node l)) (LRU.nodes l) = LRU.nodes l).
  { apply unlink_absent. intros Hin. apply list_elem_of_fmap in Hin as (m & Hm & Hml).
    specialize (Hlt m Hml). lia. }
  assert (Hl3 : l3 = LRU.mkLRU (LRU.mkNode (LRU.next_node l) p :: LRU.nodes l) (LRU.size l + 1)
                   (delete p (<[p := LRU.mkNode (N.succ (LRU.next_node l)) p]>
                              (<[p := LRU.mkNode (LRU.next_node l) p]> (LRU.nodeMap l))))
                   (N.succ (N.succ (LRU.next_node l)))).
  { unfold l3, LRU.Remove, LRU.Add, LRU.addNodeToHead, LRU.removeNode. cbn.
    rewrite lookup_insert_eq. cbn.
    rewrite decide_False by (intros H; by apply H). rewrite decide_True by lia.
    f_equal; [f_equal; exact Hns|lia]. }
  assert (Hnone : LRU.nodeMap l3 !! p = None) by (rewrite Hl3; cbn; apply lookup_delete_eq).
  split; [rewrite Hl3; unfold LRU.Size; cbn; lia|].
  split; [by rewrite Hl3|]. split; [done|].
  unfold LRU.Remove, LRU.Access. by rewrite Hnone.
Qed.

Lemma lru_double_add_stale_node_witness :
  fresh_adds (fun l => items_of (ULRU l)) [UAdd 1] LRU.newLRUUpdater = true /\
  let l := urun [UAdd 1] LRU.newLRUUpdater in
  (2%N ∉ items_of (ULRU l)) /\
  let l3 := LRU.Remove 2 (LRU.Add 2 (LRU.Add 2 l)) in
  LRU.Size l3 = LRU.Size l + 1 /\
  items_of (ULRU l3) = 2%N :: items_of (ULRU l) /\
  LRU.nodeMap l3 !! 2%N = None /\
  LRU.Remove 2 l3 = l3 /\ LRU.Access 2 l3 = l3.
Proof.
  split; [reflexivity|]. split; [vm_compute; set_solver|].
  apply (lru_double_add_stale_node [UAdd 1] 2); [reflexivity|vm_compute; set_solver].
Defined.

(** [randomStrategy.Evict] is deterministic: it removes and returns the
    last item of the arrival list (the most recently added one), so an
    [Evict] right after [Add p] returns [p] and restores the strategy; it
    returns [nil] only when nothing is tracked. *)
Theorem random_evicts_last (r : Random.randomStrategy) (p : ptr) :
  Random.Evict (Random.Add p r) = (Some p, r) /\
  (forall xs x, Random.items r = xs ++ [x] -> Random.Evict r = (Some x, Random.mkRandom xs)) /\
  (fst (Random.Evict r) = None <-> Random.items r = []).
Proof.
  assert (Hlast : forall xs x, Random.Evict (Random.mkRandom (xs ++ [x])) = (Some x, Random.mkRandom xs)).
  { intros xs x. unfold Random.Evict. cbn. rewrite length_app. cbn.
    replace (length xs + 1)%nat with (S (length xs)) by lia. cbn.
    rewrite Nat.sub_0_r, list_lookup_middle by done. by rewrite take_app_length. }
  split; [destruct r; apply Hlast|]. split.
  - intros xs x Hr. destruct r; cbn in Hr; subst. apply Hlast.
  - destruct r as [[|y ys]]; [done|]. destruct (exists_last (l:=y :: ys)) as (xs & x & Hx); [done|].
    rewrite Hx, Hlast. cbn. split; [done|]. intros Hnil. by destruct xs.
Qed.

(** What the search loop of [frequencyStrategy.Evict] finds: either no
    item of the rest of the list has a count below the current minimum
    and the state is unchanged, or it ends on the first item of least
    count, which is below the current minimum. *)
Lemma freq_scan_spec (fr : gmap ptr Z) (l : list ptr) :
  forall i o m j o' m' j',
  Frequency.scan fr i l (o, m, j) = (o', m', j') ->
  ((forall x fx, x ∈ l -> fr !! x = Some fx -> m <= fx) /\ o' = o /\ m' = m /\ j' = j) \/
  (exists k x, l !! k = Some x /\ fr !! x = Some m' /\ m' < m /\ o' = Some x /\
     j' = i + Z.of_nat k /\
     (forall y fy, y ∈ l -> fr !! y = Some fy -> m' <= fy) /\
     (forall k' y fy, (k' < k)%nat -> l !! k' = Some y -> fr !! y = Some fy -> m' < fy)).
Proof.
  induction l as [|x l IH]; intros i o m j o' m' j' Hs.
  - cbn in Hs. injection Hs as <- <- <-. left. split; [|done]. intros y fy Hy. inversion Hy.
  - cbn in Hs. destruct (fr !! x) as [fx|] eqn:Ex; [destruct (Z.ltb_spec fx m) as [Hlt|Hge]|].
    + destruct (IH _ _ _ _ _ _ _ Hs) as [(Hall & -> & -> & ->) | (k & y & Hk & Hy & Hm & -> & -> & Hmin & Hfirst)].
      * right. exists 0%nat, x. split; [done|]. split; [done|]. split; [done|].
        split; [done|]. split; [lia|]. split; [|intros; lia].
        intros z fz Hin Hfz. apply elem_of_cons in Hin as [->|Hin]; [rewrite Ex in Hfz; first [discriminate | injection Hfz as <-; lia]|].
        by apply (Hall z).
      * right. exists (S k), y. split; [done|]. split; [done|]. split; [lia|].
        split; [done|]. split; [lia|]. split.
        -- intros z fz Hin Hfz. apply elem_of_cons in Hin as [->|Hin]; [rewrite Ex in Hfz; first [discriminate | injection Hfz as <-; lia]|].
           by apply (Hmin z).
        -- intros [|k'] z fz Hk' Hz Hfz.
           ++ cbn in Hz. injection Hz as <-. rewrite Ex in Hfz; first [discriminate | injection Hfz as <-; lia].
           ++ apply (Hfirst k' z fz); [lia|done|done].
    + destruct (IH _ _ _ _ _ _ _ Hs) as [(Hall & -> & -> & ->) | (k & y & Hk & Hy & Hm & -> & -> & Hmin & Hfirst)].
      * left. split; [|done]. intros z fz Hin Hfz.
        apply elem_of_cons in Hin as [->|Hin]; [rewrite Ex in Hfz; first [discriminate | injection Hfz as <-; lia]|]. by apply (Hall z).
      * right. exists (S k), y. split; [done|]. split; [done|]. split; [done|].
        split; [done|]. split; [lia|]. split.
        -- intros z fz Hin Hfz. apply elem_of_cons in Hin as [->|Hin]; [rewrite Ex in Hfz; first [discriminate | injection Hfz as <-; lia]|].
           by apply (Hmin z).
        -- intros [|k'] z fz Hk' Hz Hfz.
           ++ cbn in Hz. injection Hz as <-. rewrite Ex in Hfz; first [discriminate | injection Hfz as <-; lia].
           ++ apply (Hfirst k' z fz); [lia|done|done].
    + destruct (IH _ _ _ _ _ _ _ Hs) as [(Hall & -> & -> & ->) | (k & y & Hk & Hy & Hm & -> & -> & Hmin & Hfirst)].
      * left. split; [|done]. intros z fz Hin Hfz.
        apply elem_of_cons in Hin as [->|Hin]; [rewrite Ex in Hfz; first [discriminate | injection Hfz as <-; lia]|]. by apply (Hall z).
      * right. exists (S k), y. split; [done|]. split; [done|]. split; [done|].
        split; [done|]. split; [lia|]. split.
        -- intros z fz Hin Hfz. apply elem_of_cons in Hin as [->|Hin]; [rewrite Ex in Hfz; first [discriminate | injection Hfz as <-; lia]|].
           by apply (Hmin z).
        -- intros [|k'] z fz Hk' Hz Hfz.
           ++ cbn in Hz. injection Hz as <-. rewrite Ex in Hfz; first [discriminate | injection Hfz as <-; lia].
           ++ apply (Hfirst k' z fz); [lia|done|done].
Qed.

(** [Evict] of the frequency strategy, on any state: it returns [nil]
    and changes nothing exactly when no tracked item has a count below
    [maxInt]; otherwise it returns the first tracked item of least count
    and takes it out of the list and of the counters. *)
Lemma freq_evict_cases (f : Frequency.frequencyStrategy) :
  ((forall q fq, q ∈ Frequency.items f -> Frequency.frequency f !! q = Some fq -> Frequency.maxInt <= fq) /\
   Frequency.Evict f = (None, f)) \/
  (exists k e fe, Frequency.items f !! k = Some e /\ Frequency.frequency f !! e = Some fe /\
     fe < Frequency.maxInt /\
     (forall q fq, q ∈ Frequency.items f -> Frequency.frequency f !! q = Some fq -> fe <= fq) /\
     (forall k' q fq, (k' < k)%nat -> Frequency.items f !! k' = Some q ->
        Frequency.frequency f !! q = Some fq -> fe < fq) /\
     Frequency.Evict f = (Some e, Frequency.mkFreq (delete k (Frequency.items f))
                                    (delete e (Frequency.frequency f)))).
Proof.
  unfold Frequency.Evict.
  destruct (Nat.eqb_spec (length (Frequency.items f)) 0) as [H0|H0].
  { left. split; [|done]. apply nil_length_inv in H0. rewrite H0. intros q fq Hq. inversion Hq. }
  destruct (Frequency.scan (Frequency.frequency f) 0 (Frequency.items f) (None, Frequency.maxInt, -1))
    as [[o m] j] eqn:Hs.
  destruct (freq_scan_spec _ _ _ _ _ _ _ _ _ Hs)
    as [(Hall & -> & -> & ->) | (k & x & Hk & Hx & Hm & -> & -> & Hmin & Hfirst)].
  - left. split; [done|]. done.
  - right. exists k, x, m. repeat split; try done.
    destruct (Z.geb_spec (0 + Z.of_nat k) 0) as [_|Hneg]; [|lia].
    by rewrite Z.add_0_l, Nat2Z.id.
Qed.

Lemma remove_first_NoDup (p : ptr) (l : list ptr) :
  NoDup l -> FIFO.remove_first p l = filter (fun q => q ≠ p) l.
Proof.
  induction l as [|x l IH]; intros Hnd; [done|].
  apply NoDup_cons in Hnd as [Hx Hnd]. cbn [FIFO.remove_first].
  destruct (N.eqb_spec x p) as [->|Hne].
  - rewrite filter_cons_False by (intros H; by apply H). by rewrite filter_ne_notin.
  - rewrite filter_cons_True by done. by rewrite IH.
Qed.

Lemma wrap64_range (z : Z) : Frequency.minInt <= Frequency.wrap64 z <= Frequency.maxInt.
Proof.
  unfold Frequency.wrap64, Frequency.minInt, Frequency.maxInt.
  pose proof (Z.mod_pos_bound (z + 2 ^ 63) (2 ^ 64) ltac:(lia)). lia.
Qed.

Lemma freq_step_wf (f : Frequency.frequencyStrategy) (o : uop) :
  freq_wf f ->
  match o with UAdd p => p ∉ Frequency.items f | _ => True end ->
  freq_wf (ustep f o).
Proof.
  intros (Hnd & Hdom & Hrange) Ho. destruct o as [p|p|p| |]; cbn.
  - unfold Frequency.Add, freq_wf; cbn. split; [|split].
    + apply NoDup_app. split; [done|]. split; [|apply NoDup_singleton].
      intros x Hx Hxp. apply list_elem_of_singleton in Hxp as ->. contradiction.
    + intros q. rewrite elem_of_app, list_elem_of_singleton.
      destruct (decide (q = p)) as [->|Hne].
      * rewrite lookup_insert_eq. split; [by eexists|by right].
      * rewrite lookup_insert_ne by done. rewrite <- Hdom. split; [by intros [|]|by left].
    + intros q n Hq. destruct (decide (q = p)) as [->|Hne].
      * rewrite lookup_insert_eq in Hq. injection Hq as <-. unfold Frequency.minInt, Frequency.maxInt. lia.
      * rewrite lookup_insert_ne in Hq by done. by apply (Hrange q).
  - unfold Frequency.Access. destruct (Frequency.frequency f !! p) as [n|] eqn:E; [|done].
    unfold freq_wf; cbn. split; [done|]. split.
    + intros q. rewrite Hdom. destruct (decide (q = p)) as [->|Hne].
      * rewrite lookup_insert_eq, E. split; intros; by eexists.
      * by rewrite lookup_insert_ne by done.
    + intros q m Hq. destruct (decide (q = p)) as [->|Hne].
      * rewrite lookup_insert_eq in Hq. injection Hq as <-. apply wrap64_range.
      * rewrite lookup_insert_ne in Hq by done. by apply (Hrange q).
  - unfold Frequency.Remove, freq_wf; cbn. rewrite remove_first_NoDup by done.
    split; [by apply NoDup_filter|]. split.
    + intros q. rewrite list_elem_of_filter, Hdom. destruct (decide (q = p)) as [->|Hne].
      * rewrite lookup_delete_eq. split; [intros [H _]; by contradict H|intros H; by inversion H].
      * rewrite lookup_delete_ne by done. split; [by intros [_ H]|done].
    + intros q m Hq. destruct (decide (q = p)) as [->|Hne].
      * by rewrite lookup_delete_eq in Hq.
      * rewrite lookup_delete_ne in Hq by done. by apply (Hrange q).
  - destruct (freq_evict_cases f) as [(_ & ->) | (k & e & fe & Hk & _ & _ & _ & _ & ->)];
      cbn; [done|].
    pose proof (delete_Permutation (Frequency.items f) k e Hk) as Hperm.
    assert (Hnd' : NoDup (e :: delete k (Frequency.items f))) by (by rewrite <- Hperm).
    apply NoDup_cons in Hnd' as [He Hnd'].
    unfold freq_wf; cbn. split; [done|]. split.
    + intros q. destruct (decide (q = e)) as [->|Hne].
      * rewrite lookup_delete_eq. split; [done|intros H; by inversion H].
      * rewrite lookup_delete_ne by done. rewrite <- Hdom. split.
        -- intros Hq. rewrite Hperm. by right.
        -- intros Hq. rewrite Hperm in Hq. apply elem_of_cons in Hq as [?|?]; done.
    + intros q m Hq. destruct (decide (q = e)) as [->|Hne].
      * by rewrite lookup_delete_eq in Hq.
      * rewrite lookup_delete_ne in Hq by done. by apply (Hrange q).
  - unfold freq_wf; cbn. split; [constructor|]. split.
    + intros q. rewrite lookup_empty. split; [intros H; inversion H|intros H; by inversion H].
    + intros q m Hq. by rewrite lookup_empty in Hq.
Qed.

Lemma freq_run_wf (ops : list uop) (f : Frequency.frequencyStrategy) :
  fresh_adds Frequency.items ops f = true -> freq_wf f -> freq_wf (urun ops f).
Proof.
  unfold urun. revert f. induction ops as [|o ops IH]; intros f Hf Hwf; [done|].
  cbn in Hf. apply andb_prop in Hf as [Ho Hf]. cbn. apply IH; [done|].
  apply freq_step_wf; [done|]. destruct o; try done.
  apply negb_true_iff, bool_decide_eq_false in Ho. done.
Qed.

Lemma freq_fresh_wf : freq_wf Frequency.newFrequencyStrategy.
Proof.
  unfold freq_wf; cbn. split; [constructor|]. split.
  - intros q. rewrite lookup_empty. split; [intros H; inversion H|intros H; by inversion H].
  - intros q m Hq. by rewrite lookup_empty in Hq.
Qed.

(** Frequency strategy structure: along any sequence of calls from
    [newFrequencyStrategy] in which [Add] receives untracked items, the
    tracked items are distinct, each has exactly one counter, every
    counter lies in the [int] range, and [Size()] equals the number of
    counters. *)
Theorem frequency_structure_invariant (ops : list uop) :
  fresh_adds Frequency.items ops Frequency.newFrequencyStrategy = true ->
  let f := urun ops Frequency.newFrequencyStrategy in
  NoDup (Frequency.items f) /\
  (forall q, q ∈ Frequency.items f <-> is_Some (Frequency.frequency f !! q)) /\
  (forall q n, Frequency.frequency f !! q = Some n -> Frequency.minInt <= n <= Frequency.maxInt) /\
  Frequency.Size f = Z.of_nat (size (Frequency.frequency f)).
Proof.
  intros Hf f. pose proof (freq_run_wf ops _ Hf freq_fresh_wf) as Hwf. fold f in Hwf.
  destruct Hwf as (Hnd & Hdom & Hrange). split; [done|]. split; [done|]. split; [done|].
  unfold Frequency.Size. f_equal.
  assert (Hd : dom (Frequency.frequency f) = list_to_set (C:=gset ptr) (Frequency.items f)).
  { apply set_eq. intros q. rewrite elem_of_dom, elem_of_list_to_set. symmetry. apply Hdom. }
  rewrite <- size_dom, Hd, size_list_to_set by done. done.
Qed.

Lemma frequency_structure_invariant_witness :
  fresh_adds Frequency.items [UAdd 1; UAdd 2; UAccess 1; UAccess 1; UEvict; UAdd 3]
    Frequency.newFrequencyStrategy = true /\
  let f := urun [UAdd 1; UAdd 2; UAccess 1; UAccess 1; UEvict; UAdd 3] Frequency.newFrequencyStrategy in
  NoDup (Frequency.items f) /\
  (forall q, q ∈ Frequency.items f <-> is_Some (Frequency.frequency f !! q)) /\
  (forall q n, Frequency.frequency f !! q = Some n -> Frequency.minInt <= n <= Frequency.maxInt) /\
  Frequency.Size f = Z.of_nat (size (Frequency.frequency f)).
Proof.
  split; [reflexivity|]. apply frequency_structure_invariant. reflexivity.
Defined.

(** [frequencyStrategy.Evict] takes the least frequently accessed item:
    the item it returns has the least counter among the tracked items,
    every item before it in arrival order has a strictly greater counter
    (ties go to the oldest), and it leaves both the list and the
    counters. *)
Theorem frequency_evicts_least_frequent (f f' : Frequency.frequencyStrategy) (e : ptr) :
  Frequency.Evict f = (Some e, f') ->
  exists k fe, Frequency.items f !! k = Some e /\ Frequency.frequency f !! e = Some fe /\
    (forall q fq, q ∈ Frequency.items f -> Frequency.frequency f !! q = Some fq -> fe <= fq) /\
    (forall k' q fq, (k' < k)%nat -> Frequency.items f !! k' = Some q ->
       Frequency.frequency f !! q = Some fq -> fe < fq) /\
    f' = Frequency.mkFreq (delete k (Frequency.items f)) (delete e (Frequency.frequency f)).
Proof.
  intros Hev.
  destruct (freq_evict_cases f) as [(_ & Hn) | (k & e' & fe & Hk & Hfe & _ & Hmin & Hfirst & Hs)].
  - congruence.
  - rewrite Hs in Hev. injection Hev as <- <-. exists k, fe. auto.
Qed.

Lemma frequency_evicts_least_frequent_witness :
  let f := urun [UAdd 1; UAdd 2; UAdd 3; UAccess 1; UAccess 1; UAccess 2; UAccess 3]
             Frequency.newFrequencyStrategy in
  Frequency.Evict f = (Some 2%N, snd (Frequency.Evict f)) /\
  exists k fe, Frequency.items f !! k = Some 2%N /\ Frequency.frequency f !! 2%N = Some fe /\
    (forall q fq, q ∈ Frequency.items f -> Frequency.frequency f !! q = Some fq -> fe <= fq) /\
    (forall k' q fq, (k' < k)%nat -> Frequency.items f !! k' = Some q ->
       Frequency.frequency f !! q = Some fq -> fe < fq) /\
    snd (Frequency.Evict f) = Frequency.mkFreq (delete k (Frequency.items f)) (delete 2%N (Frequency.frequency f)).
Proof.
  intros f. split; [reflexivity|].
  apply (frequency_evicts_least_frequent f (snd (Frequency.Evict f)) 2). reflexivity.
Defined.

(** An item accessed often enough is never evicted: on any state reached
    by the bucket's calls, [Evict] returns [nil] and changes nothing
    exactly when every tracked item's counter is [maxInt] (in particular
    when none is tracked); the counter of an item accessed at [maxInt]
    wraps to [minInt]. *)
Theorem frequency_evict_nil_at_maxInt (ops : list uop) :
  fresh_adds Frequency.items ops Frequency.newFrequencyStrategy = true ->
  let f := urun ops Frequency.newFrequencyStrategy in
  (fst (Frequency.Evict f) = None <->
   forall q, q ∈ Frequency.items f -> Frequency.frequency f !! q = Some Frequency.maxInt) /\
  (fst (Frequency.Evict f) = None -> snd (Frequency.Evict f) = f) /\
  (forall q, Frequency.frequency f !! q = Some Frequency.maxInt ->
     Frequency.frequency (Frequency.Access q f) !! q = Some Frequency.minInt).
Proof.
  intros Hf f. pose proof (freq_run_wf ops _ Hf freq_fresh_wf) as (Hnd & Hdom & Hrange).
  fold f in Hnd, Hdom, Hrange.
  split; [|split].
  - destruct (freq_evict_cases f) as [(Hall & ->) | (k & e & fe & Hk & Hfe & Hlt & _ & _ & ->)]; cbn.
    + split; [|done]. intros _ q Hq.
      destruct (proj1 (Hdom q) Hq) as [n Hn]. rewrite Hn.
      specialize (Hall q n Hq Hn). specialize (Hrange q n Hn). f_equal. lia.
    + split; [done|]. intros Hall. exfalso.
      assert (He : e ∈ Frequency.items f) by (by apply list_elem_of_lookup_2 in Hk).
      rewrite (Hall e He) in Hfe. injection Hfe as <-. lia.
  - destruct (freq_evict_cases f) as [(_ & ->) | (k & e & fe & _ & _ & _ & _ & _ & ->)]; done.
  - intros q Hq. unfold Frequency.Access. rewrite Hq. cbn. rewrite lookup_insert_eq.
    done.
Qed.

Lemma frequency_evict_nil_at_maxInt_witness :
  fresh_adds Frequency.items [UAdd 1; UAccess 1; UAdd 2; UEvict] Frequency.newFrequencyStrategy = true /\
  let f := urun [UAdd 1; UAccess 1; UAdd 2; UEvict] Frequency.newFrequencyStrategy in
  (fst (Frequency.Evict f) = None <->
   forall q, q ∈ Frequency.items f -> Frequency.frequency f !! q = Some Frequency.maxInt) /\
  (fst (Frequency.Evict f) = None -> snd (Frequency.Evict f) = f) /\
  (forall q, Frequency.frequency f !! q = Some Frequency.maxInt ->
     Frequency.frequency (Frequency.Access q f) !! q = Some Frequency.minInt).
Proof.
  split; [reflexivity|]. apply frequency_evict_nil_at_maxInt. reflexivity.
Defined.

(** *** The bucket *)

Lemma reach_inv {V} (zero : V) (opts : list Bucket.NewBucketOption) (ops : list Bucket.op) :
  Bucket.updater (Bucket.NewBucket (V:=V) opts) = ULRU LRU.newLRUUpdater \/
  Bucket.updater (Bucket.NewBucket (V:=V) opts) = UFIFO FIFO.newFIFO ->
  bucket_inv zero (Bucket.run zero ops (Bucket.NewBucket opts)).
Proof.
  intros [Hu|Hu]; apply run_inv_fresh; rewrite Hu.
  - exact (proj1 newLRUUpdater_fresh).
  - exact (proj2 newLRUUpdater_fresh).
  - done.
  - done.
Qed.

Lemma updater_add_size (u : AnyUpdater) (p : ptr) : Size (Add p u) = Size u + 1.
Proof.
  destruct u as [l|f]; cbn; [unfold LRU.Size; cbn; lia|].
  unfold FIFO.Size; cbn. rewrite length_app. cbn. lia.
Qed.

Lemma updater_clear_size (u : AnyUpdater) : Size (Clear u) = 0.
Proof. by destruct u. Qed.

Lemma remove_expired_key_fields {V} (b : Bucket.Bucket (V:=V)) (k : string) :
  Bucket.cache (Bucket.remove_expired_key b k) = delete k (Bucket.cache b) /\
  Bucket.heap (Bucket.remove_expired_key b k) = Bucket.heap b /\
  Bucket.closed (Bucket.remove_expired_key b k) = Bucket.closed b.
Proof.
  unfold Bucket.remove_expired_key. destruct (Bucket.cache b !! k) eqn:E.
  - by destruct b.
  - rewrite delete_id by done. by destruct b.
Qed.

Lemma cleanup_fold_fields {V} (keys : list string) (b : Bucket.Bucket (V:=V)) :
  (forall k, Bucket.cache (fold_left Bucket.remove_expired_key keys b) !! k =
             if decide (k ∈ keys) then None else Bucket.cache b !! k) /\
  Bucket.heap (fold_left Bucket.remove_expired_key keys b) = Bucket.heap b /\
  Bucket.closed (fold_left Bucket.remove_expired_key keys b) = Bucket.closed b.
Proof.
  revert b. induction keys as [|k' keys IH]; intros b; [done|]. cbn.
  destruct (IH (Bucket.remove_expired_key b k')) as (Hc & Hh & Hcl).
  destruct (remove_expired_key_fields b k') as (Hc' & Hh' & Hcl').
  split; [|split; congruence].
  intros k. rewrite Hc, Hc'. destruct (decide (k ∈ keys)) as [Hk|Hk].
  - rewrite decide_True by (by right). done.
  - destruct (decide (k = k')) as [->|Hne].
    + rewrite decide_True by left. apply lookup_delete_eq.
    + rewrite decide_False by (intros [?|?]%elem_of_cons; done).
      by rewrite lookup_delete_ne by congruence.
Qed.

Lemma expired_keys_spec {V} (zero : V) (b : Bucket.Bucket (V:=V)) (now : Z) (k : string) :
  k ∈ map fst (filter (fun kv => Z.lt (expiredAt (Bucket.deref zero b kv.2)) now)
                 (map_to_list (Bucket.cache b))) <->
  exists p, Bucket.cache b !! k = Some p /\ expiredAt (Bucket.deref zero b p) < now.
Proof.
  rewrite list_elem_of_fmap. split.
  - intros ([k' p] & -> & Hin). apply list_elem_of_filter in Hin as [Hexp Hin].
    apply elem_of_map_to_list in Hin. eauto.
  - intros (p & Hp & Hexp). exists (k, p). split; [done|].
    apply list_elem_of_filter. split; [done|]. by apply elem_of_map_to_list.
Qed.

Lemma nail_fields_new {V} (zero : V) (b : Bucket.Bucket (V:=V)) (id : string) (data : V) (now : Z) :
  Bucket.closed b = false -> Bucket.cache b !! id = None ->
  let b' := snd (Bucket.Nail zero id data now b) in
  Bucket.heap b' = <[Bucket.next_item b := mkCacheItem id data (now + Bucket.outdated b)]> (Bucket.heap b) /\
  Bucket.next_item b' = N.succ (Bucket.next_item b) /\
  Bucket.closed b' = false /\
  (Bucket.cache b' = <[id := Bucket.next_item b]> (Bucket.cache b) \/
   exists k, Bucket.cache b' = <[id := Bucket.next_item b]> (delete k (Bucket.cache b))).
Proof.
  intros Hcl Hid b'. unfold b', Bucket.Nail, Bucket.isClosed. rewrite Hcl, Hid.
  destruct (Z.geb _ _); [destruct (Evict _) as [[e|] u']|]; destruct b; cbn;
    (split; [done|]); (split; [done|]); (split; [done|]);
    first [left; done | right; eexists; reflexivity].
Qed.

(** Below capacity nothing is evicted: on an open bucket reached from a
    fresh built-in strategy, [Nail] of a key not in the table while
    [updater.Size() < maxSize] succeeds, files the new item under the key
    and keeps every other entry and its item as they were; [Size] grows
    by one. *)
Theorem nail_below_capacity_keeps_entries {V} (zero : V) (opts : list Bucket.NewBucketOption)
    (ops : list Bucket.op) (id : string) (data : V) (now : Z) :
  Bucket.updater (Bucket.NewBucket (V:=V) opts) = ULRU LRU.newLRUUpdater \/
  Bucket.updater (Bucket.NewBucket (V:=V) opts) = UFIFO FIFO.newFIFO ->
  let b := Bucket.run zero ops (Bucket.NewBucket opts) in
  Bucket.closed b = false -> Bucket.cache b !! id = None ->
  Size (Bucket.updater b) < Bucket.maxSize b ->
  let r := Bucket.Nail zero id data now b in
  fst r = None /\
  Bucket.cache (snd r) = <[id := Bucket.next_item b]> (Bucket.cache b) /\
  (forall k p, Bucket.cache b !! k = Some p -> Bucket.deref zero (snd r) p = Bucket.deref zero b p) /\
  Bucket.Size (snd r) = Bucket.Size b + 1.
Proof.
  intros Hu b Hcl Hid Hlt r.
  pose proof (reach_inv zero opts ops Hu) as Hinv. fold b in Hinv.
  destruct Hinv as (_ & _ & _ & Hkey).
  assert (Hge : (Size (Bucket.updater b) >=? Bucket.maxSize b) = false) by lia.
  unfold r, Bucket.Nail, Bucket.isClosed. rewrite Hcl, Hid, Hge. cbn [fst snd].
  split; [done|]. split; [by destruct b|]. split.
  - intros k p Hp. destruct (Hkey k p Hp) as [Hlt' _].
    unfold Bucket.deref. destruct b; cbn in *. rewrite lookup_insert_ne by lia. done.
  - unfold Bucket.Size, Bucket.isClosed. destruct b; cbn in *. rewrite Hcl.
    apply updater_add_size.
Qed.

Lemma nail_below_capacity_keeps_entries_witness :
  (Bucket.updater (Bucket.NewBucket (V:=nat) [Bucket.WithMaxSize 3]) = ULRU LRU.newLRUUpdater \/
   Bucket.updater (Bucket.NewBucket (V:=nat) [Bucket.WithMaxSize 3]) = UFIFO FIFO.newFIFO) /\
  let b := Bucket.run 0%nat [Bucket.ONail "a" 1%nat 0] (Bucket.NewBucket [Bucket.WithMaxSize 3]) in
  Bucket.closed b = false /\ Bucket.cache b !! "b" = None /\
  Size (Bucket.updater b) < Bucket.maxSize b /\
  let r := Bucket.Nail 0%nat "b" 2%nat 1 b in
  fst r = None /\
  Bucket.cache (snd r) = <[("b")%string := Bucket.next_item b]> (Bucket.cache b) /\
  (forall k p, Bucket.cache b !! k = Some p -> Bucket.deref 0%nat (snd r) p = Bucket.deref 0%nat b p) /\
  Bucket.Size (snd r) = Bucket.Size b + 1.
Proof.
  split; [left; reflexivity|]. split; [reflexivity|]. split; [reflexivity|].
  split; [vm_compute; reflexivity|].
  apply (nail_below_capacity_keeps_entries 0%nat [Bucket.WithMaxSize 3] [Bucket.ONail "a" 1%nat 0]);
    [left; reflexivity|reflexivity|reflexivity|vm_compute; reflexivity].
Defined.

(** [Nail] never alters another key's entry: on a bucket reached from a
    fresh built-in strategy, after [Nail(id, _)] any other key [k] is
    either still filed at the same address, or gone (evicted), and the
    item it is filed at is unchanged; so a [Bring(k)] afterwards either
    misses or answers exactly as before. *)
Theorem nail_never_alters_other_keys {V} (zero : V) (opts : list Bucket.NewBucketOption)
    (ops : list Bucket.op) (id k : string) (data : V) (now t : Z) :
  Bucket.updater (Bucket.NewBucket (V:=V) opts) = ULRU LRU.newLRUUpdater \/
  Bucket.updater (Bucket.NewBucket (V:=V) opts) = UFIFO FIFO.newFIFO ->
  k <> id ->
  let b := Bucket.run zero ops (Bucket.NewBucket opts) in
  let b' := snd (Bucket.Nail zero id data now b) in
  (Bucket.cache b' !! k = Bucket.cache b !! k \/ Bucket.cache b' !! k = None) /\
  (forall p, Bucket.cache b' !! k = Some p -> Bucket.deref zero b' p = Bucket.deref zero b p) /\
  (fst (Bucket.Bring zero k t b') = fst (Bucket.Bring zero k t b) \/
   fst (Bucket.Bring zero k t b') = (zero, false)).
Proof.
  intros Hu Hne b b'.
  pose proof (reach_inv zero opts ops Hu) as Hinv. fold b in Hinv.
  pose proof Hinv as (_ & _ & _ & Hkey).
  clearbody b.
  assert (Hmain : (Bucket.cache b' !! k = Bucket.cache b !! k \/ Bucket.cache b' !! k = None) /\
                  (forall p, Bucket.cache b' !! k = Some p -> Bucket.deref zero b' p = Bucket.deref zero b p) /\
                  Bucket.closed b' = Bucket.closed b).
  { destruct (Bucket.closed b) eqn:Hcl.
    { unfold b', Bucket.Nail, Bucket.isClosed. rewrite Hcl. cbn. split; [by left|]. done. }
    destruct (Bucket.cache b !! id) as [q|] eqn:Hid.
    - destruct (Hkey id q Hid) as [_ Hkq].
      unfold b', Bucket.Nail, Bucket.isClosed. rewrite Hcl, Hid. cbn [snd].
      split; [left; by destruct b|]. split; [|by destruct b].
      intros p Hp. assert (Hpb : Bucket.cache b !! k = Some p) by (destruct b; exact Hp).
      destruct (Hkey k p Hpb) as [_ Hkp].
      assert (p <> q) by congruence.
      unfold Bucket.deref in *. destruct b; cbn in *. by rewrite lookup_insert_ne by congruence.
    - destruct (nail_fields_new zero b id data now Hcl Hid) as (Hh & _ & Hcl' & Hc).
      fold b' in Hh, Hcl', Hc. rewrite Hcl'.
      assert (Hcb : Bucket.cache b' !! k = Bucket.cache b !! k \/ Bucket.cache b' !! k = None).
      { destruct Hc as [Hc|(k0 & Hc)]; rewrite Hc, lookup_insert_ne by congruence; [by left|].
        destruct (decide (k = k0)) as [->|Hk0]; [right; apply lookup_delete_eq|].
        left. by rewrite lookup_delete_ne by congruence. }
      split; [done|]. split; [|done].
      intros p Hp. assert (Hpb : Bucket.cache b !! k = Some p) by (destruct Hcb as [<-|]; congruence).
      destruct (Hkey k p Hpb) as [Hlt _].
      unfold Bucket.deref. rewrite Hh. by rewrite lookup_insert_ne by lia. }
  destruct Hmain as (Hcb & Hder & Hcl). split; [done|]. split; [done|].
  unfold Bucket.Bring, Bucket.isClosed. rewrite Hcl.
  destruct (Bucket.closed b); [by left|].
  destruct Hcb as [Hcb|Hcb]; rewrite Hcb; [|by right].
  left. destruct (Bucket.cache b !! k) as [p|] eqn:Hk; [|done].
  rewrite (Hder p Hcb). by destruct (Z.ltb _ _).
Qed.

Lemma nail_never_alters_other_keys_witness :
  (Bucket.updater (Bucket.NewBucket (V:=nat) [Bucket.WithMaxSize 1]) = ULRU LRU.newLRUUpdater \/
   Bucket.updater (Bucket.NewBucket (V:=nat) [Bucket.WithMaxSize 1]) = UFIFO FIFO.newFIFO) /\
  ("a" <> "b")%string /\
  let b := Bucket.run 0%nat [Bucket.ONail "a" 1%nat 0] (Bucket.NewBucket [Bucket.WithMaxSize 1]) in
  let b' := snd (Bucket.Nail 0%nat "b" 2%nat 1 b) in
  (Bucket.cache b' !! "a" = Bucket.cache b !! "a" \/ Bucket.cache b' !! "a" = None) /\
  (forall p, Bucket.cache b' !! "a" = Some p -> Bucket.deref 0%nat b' p = Bucket.deref 0%nat b p) /\
  (fst (Bucket.Bring 0%nat "a" 2 b') = fst (Bucket.Bring 0%nat "a" 2 b) \/
   fst (Bucket.Bring 0%nat "a" 2 b') = (0%nat, false)).
Proof.
  split; [left; reflexivity|]. split; [discriminate|].
  apply (nail_never_alters_other_keys 0%nat [Bucket.WithMaxSize 1] [Bucket.ONail "a" 1%nat 0]);
    [left; reflexivity|discriminate].
Defined.

(** A read never extends an entry's lifetime: on an open bucket, after
    [Nail(id, v)] at time [t0], a [Bring(id)] at any [t1] up to
    [t0 + outdated] returns [(v, true)], and a later [Bring(id)] at a
    time [t2] past [t0 + outdated] misses, the hit in between
    notwithstanding. *)
Theorem bring_hit_keeps_deadline {V} (zero : V) (b : Bucket.Bucket (V:=V)) (id : string)
    (v : V) (t0 t1 t2 : Z) :
  Bucket.closed b = false ->
  t1 <= t0 + Bucket.outdated b -> t0 + Bucket.outdated b < t2 ->
  let b1 := snd (Bucket.Nail zero id v t0 b) in
  let r1 := Bucket.Bring zero id t1 b1 in
  fst r1 = (v, true) /\ fst (Bucket.Bring zero id t2 (snd r1)) = (zero, false).
Proof.
  intros Hcl H1 H2 b1 r1.
  destruct (nail_stores zero b id v t0 Hcl) as (p & Hp & Hv & Hexp & Hcl1 & _).
  fold b1 in Hp, Hv, Hexp, Hcl1. clearbody b1.
  unfold r1, Bucket.Bring, Bucket.isClosed. rewrite Hcl1, Hp.
  assert (Hlt : (expiredAt (Bucket.deref zero b1 p) <? t1) = false) by (apply Z.ltb_ge; lia).
  rewrite Hlt, Hv. split; [done|]. cbn [snd].
  assert (Hs : Bucket.closed (Bucket.set_updater (Access p (Bucket.updater b1)) b1) = false /\
               Bucket.cache (Bucket.set_updater (Access p (Bucket.updater b1)) b1) !! id = Some p /\
               Bucket.deref zero (Bucket.set_updater (Access p (Bucket.updater b1)) b1) p =
               Bucket.deref zero b1 p) by (destruct b1; done).
  destruct Hs as (-> & -> & ->).
  assert (Hgt : (expiredAt (Bucket.deref zero b1 p) <? t2) = true) by (apply Z.ltb_lt; lia).
  by rewrite Hgt.
Qed.

Lemma bring_hit_keeps_deadline_witness :
  Bucket.closed (Bucket.NewBucket (V:=nat) [Bucket.WithBucketOutdated 10]) = false /\
  5 <= 0 + Bucket.outdated (Bucket.NewBucket (V:=nat) [Bucket.WithBucketOutdated 10]) /\
  0 + Bucket.outdated (Bucket.NewBucket (V:=nat) [Bucket.WithBucketOutdated 10]) < 11 /\
  let b1 := snd (Bucket.Nail 0%nat "a" 7%nat 0 (Bucket.NewBucket [Bucket.WithBucketOutdated 10])) in
  let r1 := Bucket.Bring 0%nat "a" 5 b1 in
  fst r1 = (7%nat, true) /\ fst (Bucket.Bring 0%nat "a" 11 (snd r1)) = (0%nat, false).
Proof.
  split; [reflexivity|]. split; [cbn; lia|]. split; [cbn; lia|].
  apply bring_hit_keeps_deadline; [reflexivity|cbn; lia|cbn; lia].
Defined.

(** The sweeper keeps exactly the live entries: a tick at time [now] on
    an open bucket leaves the key table filtered to the entries whose
    deadline is not before [now], leaves the items and the open state
    untouched, and, on a bucket reached from a fresh built-in strategy,
    [Size] afterwards is the number of entries kept. *)
Theorem sweeper_keeps_unexpired {V} (zero : V) (opts : list Bucket.NewBucketOption)
    (ops : list Bucket.op) (now : Z) :
  Bucket.updater (Bucket.NewBucket (V:=V) opts) = ULRU LRU.newLRUUpdater \/
  Bucket.updater (Bucket.NewBucket (V:=V) opts) = UFIFO FIFO.newFIFO ->
  let b := Bucket.run zero ops (Bucket.NewBucket opts) in
  Bucket.closed b = false ->
  let b' := Bucket.sweeper_tick zero now b in
  Bucket.cache b' =
    filter (fun kv : string * ptr => ~ expiredAt (Bucket.deref zero b kv.2) < now) (Bucket.cache b) /\
  Bucket.heap b' = Bucket.heap b /\ Bucket.closed b' = false /\
  Bucket.Size b' = Z.of_nat (size (Bucket.cache b')).
Proof.
  intros Hu b Hcl b'.
  assert (Hinv' : bucket_inv zero b').
  { assert (Hr : Bucket.run zero (ops ++ [Bucket.OTick now]) (Bucket.NewBucket (V:=V) opts) = b')
      by (unfold b', b, Bucket.run; by rewrite fold_left_app).
    rewrite <- Hr. apply reach_inv, Hu. }
  clearbody b.
  assert (Hb' : b' = fold_left Bucket.remove_expired_key
     (map fst (filter (fun kv => Z.lt (expiredAt (Bucket.deref zero b kv.2)) now)
                 (map_to_list (Bucket.cache b)))) b).
  { unfold b', Bucket.sweeper_tick, Bucket.isClosed, Bucket.cleanupExpired. by rewrite Hcl. }
  clearbody b'. subst b'.
  destruct (cleanup_fold_fields
     (map fst (filter (fun kv => Z.lt (expiredAt (Bucket.deref zero b kv.2)) now)
                 (map_to_list (Bucket.cache b)))) b) as (Hc & Hh & Hcl').
  assert (Hcache : Bucket.cache (fold_left Bucket.remove_expired_key
     (map fst (filter (fun kv => Z.lt (expiredAt (Bucket.deref zero b kv.2)) now)
                 (map_to_list (Bucket.cache b)))) b) =
    filter (fun kv : string * ptr => ~ expiredAt (Bucket.deref zero b kv.2) < now) (Bucket.cache b)).
  { apply map_eq. intros k. rewrite Hc, map_lookup_filter.
    destruct (decide _) as [Hk|Hk].
    - apply (expired_keys_spec zero b now k) in Hk as (p & Hp & Hexp).
      rewrite Hp. cbn. by rewrite option_guard_False by (intros H; apply H; exact Hexp).
    - destruct (Bucket.cache b !! k) as [p|] eqn:Hp; [|done]. cbn.
      rewrite option_guard_True; [done|]. intros Hexp. apply Hk.
      apply (expired_keys_spec zero b now k). eauto. }
  split; [done|]. split; [done|]. split; [by rewrite Hcl'|].
  unfold Bucket.Size, Bucket.isClosed. rewrite Hcl', Hcl. symmetry. by apply (inv_parity zero).
Qed.

Lemma sweeper_keeps_unexpired_witness :
  (Bucket.updater (Bucket.NewBucket (V:=nat) [Bucket.WithBucketOutdated 10]) = ULRU LRU.newLRUUpdater \/
   Bucket.updater (Bucket.NewBucket (V:=nat) [Bucket.WithBucketOutdated 10]) = UFIFO FIFO.newFIFO) /\
  let b := Bucket.run 0%nat [Bucket.ONail "a" 1%nat 0; Bucket.ONail "b" 2%nat 5]
             (Bucket.NewBucket [Bucket.WithBucketOutdated 10]) in
  Bucket.closed b = false /\
  let b' := Bucket.sweeper_tick 0%nat 12 b in
  Bucket.cache b' =
    filter (fun kv : string * ptr => ~ expiredAt (Bucket.deref 0%nat b kv.2) < 12) (Bucket.cache b) /\
  Bucket.heap b' = Bucket.heap b /\ Bucket.closed b' = false /\
  Bucket.Size b' = Z.of_nat (size (Bucket.cache b')).
Proof.
  split; [left; reflexivity|]. split; [reflexivity|].
  apply (sweeper_keeps_unexpired 0%nat [Bucket.WithBucketOutdated 10]
           [Bucket.ONail "a" 1%nat 0; Bucket.ONail "b" 2%nat 5] 12); [left; reflexivity|reflexivity].
Defined.

(** [Clear] on an open bucket empties it and keeps it usable: the bucket
    stays open with its configuration, [Size] is 0, and every [Bring]
    then misses without changing anything. *)
Theorem clear_empties_keeps_open {V} (zero : V) (b : Bucket.Bucket (V:=V)) :
  Bucket.closed b = false ->
  let b' := Bucket.Clear b in
  Bucket.closed b' = false /\ Bucket.cache b' = ∅ /\ Bucket.Size b' = 0 /\
  Bucket.maxSize b' = Bucket.maxSize b /\ Bucket.outdated b' = Bucket.outdated b /\
  (forall id t, Bucket.Bring zero id t b' = ((zero, false), b')).
Proof.
  intros Hcl b'.
  assert (Hf : Bucket.closed b' = false /\ Bucket.cache b' = ∅ /\
               Bucket.updater b' = Clear (Bucket.updater b) /\
               Bucket.maxSize b' = Bucket.maxSize b /\ Bucket.outdated b' = Bucket.outdated b).
  { unfold b', Bucket.Clear, Bucket.isClosed. rewrite Hcl. by destruct b; cbn in *. }
  clearbody b'. destruct Hf as (Hcl' & Hc & Hu & Hm & Ho).
  split; [done|]. split; [done|]. split.
  { unfold Bucket.Size, Bucket.isClosed. rewrite Hcl', Hu. apply updater_clear_size. }
  split; [done|]. split; [done|].
  intros id t. unfold Bucket.Bring, Bucket.isClosed. rewrite Hcl', Hc. done.
Qed.

Lemma clear_empties_keeps_open_witness :
  Bucket.closed (Bucket.run 0%nat [Bucket.ONail "a" 1%nat 0] (Bucket.NewBucket [])) = false /\
  let b' := Bucket.Clear (Bucket.run 0%nat [Bucket.ONail "a" 1%nat 0] (Bucket.NewBucket [])) in
  Bucket.closed b' = false /\ Bucket.cache b' = ∅ /\ Bucket.Size b' = 0 /\
  Bucket.maxSize b' = Bucket.maxSize (Bucket.run 0%nat [Bucket.ONail "a" 1%nat 0] (Bucket.NewBucket [])) /\
  Bucket.outdated b' = Bucket.outdated (Bucket.run 0%nat [Bucket.ONail "a" 1%nat 0] (Bucket.NewBucket [])) /\
  (forall id t, Bucket.Bring 0%nat id t b' = ((0%nat, false), b')).
Proof.
  split; [reflexivity|]. apply clear_empties_keeps_open. reflexivity.
Defined.

(** Once closed, a bucket never changes again: any sequence of [Nail],
    [Bring], [Size], [Clear], [Close], sweeper ticks and [IsClosed] on a
    closed bucket leaves it exactly as it is. *)
Theorem closed_bucket_frozen {V} (zero : V) (b : Bucket.Bucket (V:=V)) (ops : list Bucket.op) :
  Bucket.closed b = true -> Bucket.run zero ops b = b.
Proof.
  intros Hcl. unfold Bucket.run. induction ops as [|o ops IH]; [done|]. cbn [fold_left].
  assert (Hs : Bucket.step zero b o = b).
  { destruct o; cbn [Bucket.step];
      unfold Bucket.Nail, Bucket.Bring, Bucket.Clear, Bucket.Close, Bucket.sweeper_tick,
        Bucket.isClosed; rewrite ?Hcl; done. }
  by rewrite Hs.
Qed.

Lemma closed_bucket_frozen_witness :
  Bucket.closed (Bucket.run 0%nat [Bucket.ONail "a" 1%nat 0; Bucket.OClose] (Bucket.NewBucket [])) = true /\
  Bucket.run 0%nat [Bucket.ONail "b" 2%nat 1; Bucket.OClear; Bucket.OTick 3]
    (Bucket.run 0%nat [Bucket.ONail "a" 1%nat 0; Bucket.OClose] (Bucket.NewBucket [])) =
  Bucket.run 0%nat [Bucket.ONail "a" 1%nat 0; Bucket.OClose] (Bucket.NewBucket []).
Proof.
  split; [reflexivity|]. apply closed_bucket_frozen. reflexivity.
Defined.

(** Which entry a full bucket gives up: on an open bucket reached from a
    fresh built-in strategy, [Nail] of a new key at capacity drops the
    key of the strategy's victim and files the new key; with LRU the
    victim is the least recently used item (the end of the list) and the
    new item goes to the front, with FIFO the victim is the oldest item
    and the new item goes to the back. *)
Theorem nail_at_capacity_victim {V} (zero : V) (opts : list Bucket.NewBucketOption)
    (ops : list Bucket.op) (id : string) (data : V) (now : Z) :
  Bucket.updater (Bucket.NewBucket (V:=V) opts) = ULRU LRU.newLRUUpdater \/
  Bucket.updater (Bucket.NewBucket (V:=V) opts) = UFIFO FIFO.newFIFO ->
  let b := Bucket.run zero ops (Bucket.NewBucket opts) in
  Bucket.closed b = false -> Bucket.cache b !! id = None ->
  Size (Bucket.updater b) >= Bucket.maxSize b ->
  let b' := snd (Bucket.Nail zero id data now b) in
  (forall l xs e, Bucket.updater b = ULRU l -> items_of (Bucket.updater b) = xs ++ [e] ->
     Bucket.cache b' = <[id := Bucket.next_item b]> (delete (key (Bucket.deref zero b e)) (Bucket.cache b)) /\
     items_of (Bucket.updater b') = Bucket.next_item b :: xs) /\
  (forall f e rest, Bucket.updater b = UFIFO f -> items_of (Bucket.updater b) = e :: rest ->
     Bucket.cache b' = <[id := Bucket.next_item b]> (delete (key (Bucket.deref zero b e)) (Bucket.cache b)) /\
     items_of (Bucket.updater b') = rest ++ [Bucket.next_item b]).
Proof.
  intros Hu b Hcl Hid Hge b'.
  pose proof (reach_inv zero opts ops Hu) as Hinv. fold b in Hinv. clearbody b.
  assert (Hg : (Size (Bucket.updater b) >=? Bucket.maxSize b) = true) by lia.
  unfold b', Bucket.Nail, Bucket.isClosed. rewrite Hcl, Hid, Hg. split.
  - intros l xs e Hl Hits. destruct Hinv as (Hwf & _). rewrite Hl in Hwf, Hits. cbn in Hwf.
    destruct (lru_evict_last l xs e Hwf Hits) as [Hev Hits'].
    assert (He : Evict (ULRU l) = (Some e, ULRU (LRU.Remove e l))).
    { change (evict_any (ULRU l) = (Some e, ULRU (LRU.Remove e l))). cbn [evict_any]. by rewrite Hev. }
    rewrite Hl, He. destruct b; cbn in *. split; [done|]. by rewrite Hits'.
  - intros f e rest Hf Hits. rewrite Hf in Hits. cbn in Hits.
    assert (He : Evict (UFIFO f) = (Some e, UFIFO (FIFO.mkFIFO rest))).
    { change (evict_any (UFIFO f) = (Some e, UFIFO (FIFO.mkFIFO rest))). cbn [evict_any].
      unfold FIFO.Evict. by rewrite Hits. }
    rewrite Hf, He. destruct b; cbn in *. by split.
Qed.

Lemma nail_at_capacity_victim_witness :
  (Bucket.updater (Bucket.NewBucket (V:=nat) [Bucket.WithMaxSize 2; Bucket.WithFIFOUpdater]) = ULRU LRU.newLRUUpdater \/
   Bucket.updater (Bucket.NewBucket (V:=nat) [Bucket.WithMaxSize 2; Bucket.WithFIFOUpdater]) = UFIFO FIFO.newFIFO) /\
  let b := Bucket.run 0%nat [Bucket.ONail "a" 1%nat 0; Bucket.ONail "b" 2%nat 1]
             (Bucket.NewBucket [Bucket.WithMaxSize 2; Bucket.WithFIFOUpdater]) in
  Bucket.closed b = false /\ Bucket.cache b !! "c" = None /\
  Size (Bucket.updater b) >= Bucket.maxSize b /\
  let b' := snd (Bucket.Nail 0%nat "c" 3%nat 2 b) in
  (forall l xs e, Bucket.updater b = ULRU l -> items_of (Bucket.updater b) = xs ++ [e] ->
     Bucket.cache b' = <[("c")%string := Bucket.next_item b]> (delete (key (Bucket.deref 0%nat b e)) (Bucket.cache b)) /\
     items_of (Bucket.updater b') = Bucket.next_item b :: xs) /\
  (forall f e rest, Bucket.updater b = UFIFO f -> items_of (Bucket.updater b) = e :: rest ->
     Bucket.cache b' = <[("c")%string := Bucket.next_item b]> (delete (key (Bucket.deref 0%nat b e)) (Bucket.cache b)) /\
     items_of (Bucket.updater b') = rest ++ [Bucket.next_item b]).
Proof.
  split; [right; reflexivity|]. split; [reflexivity|]. split; [reflexivity|].
  split; [vm_compute; discriminate|].
  apply (nail_at_capacity_victim 0%nat [Bucket.WithMaxSize 2; Bucket.WithFIFOUpdater]
           [Bucket.ONail "a" 1%nat 0; Bucket.ONail "b" 2%nat 1]);
    [right; reflexivity|reflexivity|reflexivity|vm_compute; discriminate].
Defined.

(** What [NewBucket] builds: an open bucket with an empty table whose
    name, capacity, time-to-live, sweep interval and strategy each come
    from the last option in the list that sets them, or from the
    defaults (1000 entries, five minutes, one minute, a fresh LRU) when
    none does. *)
Theorem NewBucket_configuration {V} (opts : list Bucket.NewBucketOption) :
  Bucket.NewBucket (V:=V) opts =
  Bucket.mkBucket (last_set sets_name "" opts) (last_set sets_maxSize Bucket.defaultMaxSize opts)
    (last_set sets_outdated Bucket.defaultOutdated opts)
    (last_set sets_cleanupInterval Bucket.defaultCleanupInterval opts) ∅ ∅ 0%N
    (last_set sets_updater (ULRU LRU.newLRUUpdater) opts) false.
Proof.
  unfold Bucket.NewBucket, last_set.
  generalize "" Bucket.defaultMaxSize Bucket.defaultOutdated Bucket.defaultCleanupInterval
    (ULRU LRU.newLRUUpdater).
  induction opts as [|o opts IH]; intros n m d i u; [done|]. cbn [fold_left].
  rewrite <- IH. by destruct o.
Qed.

(** With the FIFO strategy the bucket keeps the same bookkeeping as with
    LRU: in every reached state the key table and the arrival queue hold
    the same items, each once, [len(cache)] equals [updater.Size()], and
    the queue never holds more than [maxSize] items (one, when [maxSize]
    is not positive). *)
Theorem fifo_bucket_parity_capacity {V} (zero : V) (opts : list Bucket.NewBucketOption)
    (ops : list Bucket.op) :
  Bucket.updater (Bucket.NewBucket (V:=V) opts) = UFIFO FIFO.newFIFO ->
  let b := Bucket.run zero ops (Bucket.NewBucket opts) in
  Z.of_nat (size (Bucket.cache b)) = Size (Bucket.updater b) /\
  (forall p, (exists k, Bucket.cache b !! k = Some p) <-> p ∈ items_of (Bucket.updater b)) /\
  NoDup (items_of (Bucket.updater b)) /\
  Size (Bucket.updater b) <= Z.max (Bucket.maxSize (Bucket.NewBucket (V:=V) opts)) 1.
Proof.
  intros Hu b.
  assert (Hinv0 : bucket_inv zero (Bucket.NewBucket (V:=V) opts))
    by (apply NewBucket_inv; rewrite Hu; done).
  pose proof (reach_inv zero opts ops (or_intror Hu)) as Hinv. fold b in Hinv.
  split; [by apply (inv_parity zero)|].
  split; [intros p; symmetry; by apply (inv_tracked zero)|].
  split; [apply Hinv|].
  refine (proj1 (run_bound zero ops _ Hinv0 _)). rewrite Hu. change (Size (UFIFO FIFO.newFIFO)) with 0. lia.
Qed.

Lemma fifo_bucket_parity_capacity_witness :
  Bucket.updater (Bucket.NewBucket (V:=nat) [Bucket.WithFIFOUpdater; Bucket.WithMaxSize 2]) = UFIFO FIFO.newFIFO /\
  let b := Bucket.run 0%nat [Bucket.ONail "a" 1%nat 0; Bucket.ONail "b" 2%nat 1; Bucket.ONail "c" 3%nat 2]
             (Bucket.NewBucket [Bucket.WithFIFOUpdater; Bucket.WithMaxSize 2]) in
  Z.of_nat (size (Bucket.cache b)) = Size (Bucket.updater b) /\
  (forall p, (exists k, Bucket.cache b !! k = Some p) <-> p ∈ items_of (Bucket.updater b)) /\
  NoDup (items_of (Bucket.updater b)) /\
  Size (Bucket.updater b) <= Z.max (Bucket.maxSize (Bucket.NewBucket (V:=nat) [Bucket.WithFIFOUpdater; Bucket.WithMaxSize 2])) 1.
Proof.
  split; [reflexivity|]. apply fifo_bucket_parity_capacity. reflexivity.
Defined.

(** *** The FIFO strategy on its own *)

(** FIFO order is arrival order: along any run of [Add] and [Access]
    calls the queue is the items it started with followed by the added
    items in the order they were added, accesses having no effect, and
    [Evict] then returns the oldest of them ([nil] on an empty queue). *)
Theorem fifo_queue_is_arrival_order (f : FIFO.fifo) (ops : list uop) :
  adds_and_accesses ops = true ->
  FIFO.items (urun ops f) = FIFO.items f ++ added ops /\
  fst (FIFO.Evict (urun ops f)) = head (FIFO.items f ++ added ops).
Proof.
  intros Hops. assert (Hq : FIFO.items (urun ops f) = FIFO.items f ++ added ops).
  { unfold urun. revert f. induction ops as [|o ops IH]; intros f; cbn.
    - by rewrite app_nil_r.
    - destruct o as [p|p| | |]; try discriminate; cbn in Hops; rewrite (IH Hops).
      + cbn. by rewrite <- app_assoc.
      + done. }
  split; [done|]. unfold FIFO.Evict. rewrite Hq. by destruct (FIFO.items f ++ added ops).
Qed.

Lemma fifo_queue_is_arrival_order_witness :
  adds_and_accesses [UAdd 1; UAdd 2; UAccess 1; UAdd 3] = true /\
  FIFO.items (urun [UAdd 1; UAdd 2; UAccess 1; UAdd 3] FIFO.newFIFO) =
    FIFO.items FIFO.newFIFO ++ added [UAdd 1; UAdd 2; UAccess 1; UAdd 3] /\
  fst (FIFO.Evict (urun [UAdd 1; UAdd 2; UAccess 1; UAdd 3] FIFO.newFIFO)) =
    head (FIFO.items FIFO.newFIFO ++ added [UAdd 1; UAdd 2; UAccess 1; UAdd 3]).
Proof.
  split; [reflexivity|]. apply fifo_queue_is_arrival_order. reflexivity.
Defined.

(** FIFO [Remove] drops one occurrence only, the first: an item present
    several times keeps its later occurrences, and removing an item the
    queue does not hold leaves the queue unchanged. *)
Theorem fifo_remove_first_occurrence (xs ys : list ptr) (p : ptr) :
  p ∉ xs ->
  FIFO.Remove p (FIFO.mkFIFO (xs ++ p :: ys)) = FIFO.mkFIFO (xs ++ ys) /\
  FIFO.Remove p (FIFO.mkFIFO xs) = FIFO.mkFIFO xs.
Proof.
  intros Hp. unfold FIFO.Remove; cbn [FIFO.items]. split; f_equal.
  - induction xs as [|x xs IH]; cbn.
    + by rewrite N.eqb_refl.
    + apply not_elem_of_cons in Hp as [Hx Hp].
      destruct (N.eqb_spec x p); [congruence|]. by rewrite IH.
  - induction xs as [|x xs IH]; cbn; [done|].
    apply not_elem_of_cons in Hp as [Hx Hp].
    destruct (N.eqb_spec x p); [congruence|]. by rewrite IH.
Qed.

Lemma fifo_remove_first_occurrence_witness :
  (3%N ∉ [1%N; 2%N]) /\
  FIFO.Remove 3 (FIFO.mkFIFO ([1%N; 2%N] ++ 3%N :: [3%N; 4%N])) = FIFO.mkFIFO ([1%N; 2%N] ++ [3%N; 4%N]) /\
  FIFO.Remove 3 (FIFO.mkFIFO [1%N; 2%N]) = FIFO.mkFIFO [1%N; 2%N].
Proof.
  split; [intros H; repeat (apply elem_of_cons in H as [H|H]; [discriminate|]); inversion H|].
  apply (fifo_remove_first_occurrence [1%N; 2%N] [3%N; 4%N] 3%N).
  intros H; repeat (apply elem_of_cons in H as [H|H]; [discriminate|]); inversion H.
Defined.
